(** * A URL multiplexer: admission limiter, fetch unit, worker pool, orchestrator

    Shallow embedding of [main.go].  Shared memory is explicit state; the
    goroutines of [downloadUrls] and the concurrent callers of the limiter are
    small-step machines driven by a schedule, so that every interleaving of the
    Go program is a schedule of the model. *)

From Stdlib Require Import ZArith Lia DecimalString.
From stdpp Require Import base tactics option list strings.

Local Open Scope string_scope.
Local Open Scope Z_scope.

(** ** Go values *)

(** A Go [error]: the only thing the program observes of one is its [Error()]
    text.  [Errorf] is what [fmt.Errorf] yields once the verbs are expanded. *)
Record error : Type := Errorf { Error : string }.

(** The double quote, which the format strings of [main.go] escape. *)
Definition dquote : string := String (Ascii.ascii_of_nat 34) EmptyString.

(** The verb [%d] of package [fmt] on an [int]. *)
Definition fmt_d (z : Z) : string := NilZero.string_of_int (Z.to_int z).

(** [int32] arithmetic: two's complement on 32 bits. *)
Definition int32_min : Z := - 2 ^ 31.
Definition int32_max : Z := 2 ^ 31 - 1.
Definition is_int32 (z : Z) : Prop := int32_min <= z <= int32_max.
Definition wrap32 (z : Z) : Z := (z + 2 ^ 31) mod 2 ^ 32 - 2 ^ 31.

Definition MaxConcurrentTasksPerRequest : nat := 4.
Definition MaxConcurrentClients : Z := 100.
Definition MaxUrlsPerRequest : nat := 20.

(** ** The lock-free client limiter *)

Module Limiter.

Record ClientLimiter : Type := mkLimiter {
  MaxConcurrentClients : Z;
  clientCount : Z
}.

Definition with_count (c : ClientLimiter) (v : Z) : ClientLimiter :=
  {| MaxConcurrentClients := MaxConcurrentClients c; clientCount := v |}.

(** The three operations of [sync/atomic] the limiter uses, each one
    indivisible. *)
Definition LoadInt32 (c : ClientLimiter) : Z := clientCount c.

Definition CompareAndSwapInt32 (c : ClientLimiter) (old new : Z)
  : bool * ClientLimiter :=
  if clientCount c =? old then (true, with_count c new) else (false, c).

Definition AddInt32 (c : ClientLimiter) (delta : Z) : ClientLimiter :=
  with_count c (wrap32 (clientCount c + delta)).

Definition limit_reached : error := Errorf "limit reached".

(** The closure [do] of [Acquire], run with nothing else touching the
    counter between its load and its compare-and-swap. *)
Definition do (c : ClientLimiter) : (bool * option error) * ClientLimiter :=
  let current := LoadInt32 c in
  if MaxConcurrentClients c <=? current then ((false, Some limit_reached), c)
  else
    let '(ret, c') := CompareAndSwapInt32 c current (wrap32 (current + 1)) in
    ((ret, None), c').

(** [for { ... }]: [fuel] bounds the number of rounds; [None] is a loop that
    has not returned within them. *)
Fixpoint Acquire (fuel : nat) (c : ClientLimiter)
  : option (option error * ClientLimiter) :=
  match fuel with
  | O => None
  | S fuel' =>
      let '((acquired, err), c') := do c in
      match err with
      | Some e => Some (Some e, c')
      | None => if acquired then Some (None, c') else Acquire fuel' c'
      end
  end.

Definition release (c : ClientLimiter) : ClientLimiter := AddInt32 c (-1).

(** *** Concurrent callers

    Each caller runs the protocol of [Handler.onRequest]: [Acquire], and
    after a successful one a single deferred [release].  The load and the
    compare-and-swap of one round are separate steps; other callers may
    run in between. *)
Inductive Caller : Type :=
| Entering              (* at the top of [do] *)
| Loaded (current : Z)  (* passed the limit check, about to swap *)
| Rejected              (* [Acquire] returned the error *)
| Holding               (* [Acquire] returned nil, [release] is deferred *)
| Released.             (* the deferred [release] has run *)

Record System : Type := mkSystem {
  limiter : ClientLimiter;
  callers : list Caller
}.

(** One step of caller [i]; [None] when it has nothing left to do. *)
Definition step (s : System) (i : nat) : option System :=
  match callers s !! i with
  | Some Entering =>
      let current := LoadInt32 (limiter s) in
      if MaxConcurrentClients (limiter s) <=? current
      then Some (mkSystem (limiter s) (<[i := Rejected]> (callers s)))
      else Some (mkSystem (limiter s) (<[i := Loaded current]> (callers s)))
  | Some (Loaded current) =>
      let '(ret, c') :=
        CompareAndSwapInt32 (limiter s) current (wrap32 (current + 1)) in
      Some (mkSystem c' (<[i := if ret then Holding else Entering]> (callers s)))
  | Some Holding =>
      Some (mkSystem (release (limiter s)) (<[i := Released]> (callers s)))
  | Some Rejected | Some Released | None => None
  end.

Fixpoint run (s : System) (sched : list nat) : option System :=
  match sched with
  | [] => Some s
  | i :: sched' =>
      match step s i with
      | Some s' => run s' sched'
      | None => None
      end
  end.

(** [n] callers arriving at a limiter built as in [main]. *)
Definition init (max : Z) (n : nat) : System :=
  mkSystem (mkLimiter max 0) (replicate n Entering).

(** The number of callers between a successful [Acquire] and their
    [release]. *)
Definition holds (c : Caller) : Z :=
  match c with Holding => 1 | _ => 0 end.

Fixpoint holders (cs : list Caller) : Z :=
  match cs with
  | [] => 0
  | c :: cs' => holds c + holders cs'
  end.

(** What every reachable system satisfies: the counter is the number of
    holders, and a caller about to swap has seen a value below the
    maximum. *)
Record Inv (max : Z) (s : System) : Prop := {
  inv_max : MaxConcurrentClients (limiter s) = max;
  inv_count : clientCount (limiter s) = holders (callers s);
  inv_bound : holders (callers s) <= max;
  inv_loaded : ∀ i cur, callers s !! i = Some (Loaded cur) → cur < max
}.

End Limiter.


(** ** The fetch unit *)

Module Fetch.

(** What [ioutil.ReadAll] returns on a response body: the bytes read, and
    the error when the read broke off. *)
Record Body : Type := mkBody {
  data : string;
  read_err : option error
}.

Definition ReadAll (b : Body) : string * option error := (data b, read_err b).

Record Response : Type := mkResponse {
  StatusCode : Z;
  RespBody : Body
}.

(** What the outside world answers to one call of [downloadUrl]: whether
    [http.NewRequestWithContext] accepts the URL, and what [client.Do]
    yields (a transport failure, which includes an abort through the
    cancelled context, or a response).  Which answer a call gets is the
    environment's choice, so it is an argument. *)
Record Exchange : Type := mkExchange {
  NewRequestWithContext : option error;
  Do : error + Response
}.

(** A [[]byte] result is [None] for the nil slice. *)
Definition downloadUrl (net : Exchange) (url : string)
  : option string * option error :=
  match NewRequestWithContext net with
  | Some err => (None, Some err)
  | None =>
      match Do net with
      | inl err => (None, Some err)
      | inr resp =>
          if negb ((200 <=? StatusCode resp) && (StatusCode resp <? 300)) then
            match ReadAll (RespBody resp) with
            | (_, Some _) =>
                (None, Some (Errorf ("status code: " ++ fmt_d (StatusCode resp))))
            | (errorData, None) =>
                (None, Some (Errorf ("status code: " ++ fmt_d (StatusCode resp)
                                       ++ " (" ++ errorData ++ ")")))
            end
          else
            let '(ret, err) := ReadAll (RespBody resp) in (Some ret, err)
      end
  end.

(** A transport that answers 404 with the given body. *)
Definition answers_404 (body : string) (broken : option error) : Exchange :=
  mkExchange None (inr (mkResponse 404 (mkBody body broken))).

(** The conversion [string(ret)]. *)
Definition string_of_bytes (b : option string) : string := default "" b.

End Fetch.

(** ** The worker pool and the orchestrator *)

Module Pool.
Import Fetch.

Record TaskResult : Type := mkTaskResult {
  Url : string;
  Result : string;
  Err : option error
}.

(** A worker goroutine: where it stands in [for url := range tasks]. *)
Inductive Worker : Type :=
| Ranging                 (* about to receive from [tasks] *)
| Fetching (url : string) (* inside [downloadUrl] *)
| Sending (r : TaskResult)(* about to send on [results] *)
| Exited.                 (* [tasks] was closed and empty *)

(** The goroutine that called [downloadUrls]: in its collecting loop, or
    returned ([None] is the nil slice, respectively the nil error). *)
Inductive Orchestrator : Type :=
| Collecting (i : nat) (ret : list TaskResult)
| Returned (ret : option (list TaskResult)) (err : option error).

Record State : Type := mkState {
  tasks : list string;          (* buffer of the closed channel [tasks] *)
  results : list TaskResult;    (* buffer of the channel [results] *)
  workers : list Worker;
  cancelCalls : nat;            (* calls of [cancelRequests] so far *)
  orch : Orchestrator;
  (* history, not read by the program *)
  fetched : list string;        (* URLs [downloadUrl] was called on *)
  received : list TaskResult    (* what the orchestrator has read *)
}.

Inductive Event : Type :=
| Take (w : nat)                   (* worker [w] receives from [tasks] *)
| Fetch (w : nat) (net : Exchange) (* its [downloadUrl] returns *)
| Send (w : nat)                   (* it sends on [results] *)
| Collect.                         (* one turn of the orchestrator's loop *)

Definition set_worker (s : State) (w : nat) (x : Worker) : State :=
  mkState (tasks s) (results s) (<[w := x]> (workers s)) (cancelCalls s)
          (orch s) (fetched s) (received s).

Definition download_failed (result : TaskResult) (e : error) : error :=
  Errorf ("failed to download Url " ++ dquote ++ Url result ++ dquote
            ++ ": " ++ Error e).

Section Batch.
Variable urls : list string.

(** The state once [downloadUrls] has filled and closed [tasks], made
    [results] and started its workers. *)
Definition init : State :=
  mkState urls [] (replicate MaxConcurrentTasksPerRequest Ranging) 0
          (Collecting 0 []) [] [].

(** One step of the batch; [None] when the event cannot happen in [s] (the
    goroutine is elsewhere, or blocked on its channel). *)
Definition step (s : State) (e : Event) : option State :=
  match e with
  | Take w =>
      match workers s !! w with
      | Some Ranging =>
          match tasks s with
          | [] => Some (set_worker s w Exited)
          | url :: rest =>
              Some (mkState rest (results s) (<[w := Fetching url]> (workers s))
                            (cancelCalls s) (orch s) (fetched s) (received s))
          end
      | _ => None
      end
  | Fetch w net =>
      match workers s !! w with
      | Some (Fetching url) =>
          let '(ret, err) := downloadUrl net url in
          let r := {| Err := err; Result := string_of_bytes ret; Url := url |} in
          Some (mkState (tasks s) (results s) (<[w := Sending r]> (workers s))
                        (cancelCalls s) (orch s) (fetched s ++ [url]) (received s))
      | _ => None
      end
  | Send w =>
      match workers s !! w with
      | Some (Sending r) =>
          if (length (results s) <? length urls)%nat then
            Some (mkState (tasks s) (results s ++ [r]) (<[w := Ranging]> (workers s))
                          (cancelCalls s) (orch s) (fetched s) (received s))
          else None
      | _ => None
      end
  | Collect =>
      match orch s with
      | Collecting i ret =>
          if (i <? length urls)%nat then
            match results s with
            | [] => None
            | result :: rest =>
                match Err result with
                | Some e =>
                    Some (mkState (tasks s) rest (workers s) (S (cancelCalls s))
                                  (Returned None (Some (download_failed result e)))
                                  (fetched s) (received s ++ [result]))
                | None =>
                    Some (mkState (tasks s) rest (workers s) (cancelCalls s)
                                  (Collecting (S i) (ret ++ [result]))
                                  (fetched s) (received s ++ [result]))
                end
            end
          else
            Some (mkState (tasks s) (results s) (workers s) (cancelCalls s)
                          (Returned (Some ret) None) (fetched s) (received s))
      | Returned _ _ => None
      end
  end.

Fixpoint run (s : State) (evs : list Event) : option State :=
  match evs with
  | [] => Some s
  | e :: evs' =>
      match step s e with
      | Some s' => run s' evs'
      | None => None
      end
  end.

(** Nothing can happen any more: every goroutine of the batch is done. *)
Definition quiescent (s : State) : Prop := ∀ e, step s e = None.

End Batch.

(** The URLs whose fetch is in flight, and the results waiting to be sent. *)
Definition in_flight (w : Worker) : list string :=
  match w with Fetching url => [url] | _ => [] end.

Definition unsent (w : Worker) : list TaskResult :=
  match w with Sending r => [r] | _ => [] end.

Definition no_error (r : TaskResult) : Prop := Err r = None.



(** Steps a goroutine still has before it, at most: a bound on how long a
    batch can run. *)
Definition worker_steps (w : Worker) : nat :=
  match w with
  | Ranging => 1
  | Fetching _ => 3
  | Sending _ => 2
  | Exited => 0
  end.

Fixpoint pool_steps (ws : list Worker) : nat :=
  match ws with
  | [] => 0
  | w :: ws' => worker_steps w + pool_steps ws'
  end.

Definition orch_steps (urls : list string) (o : Orchestrator) : nat :=
  match o with
  | Collecting i _ => S (length urls - i)
  | Returned _ _ => 0
  end.

Definition steps_left (urls : list string) (s : State) : nat :=
  3 * length (tasks s) + pool_steps (workers s)
  + orch_steps urls (orch s).

(** What every reachable state of a batch satisfies. *)
Record Inv (urls : list string) (s : State) : Prop := {
  inv_workers : length (workers s) = MaxConcurrentTasksPerRequest;
  (* every URL is in the queue, in flight, or fetched: once *)
  inv_tasks : (tasks s ++ (workers s ≫= in_flight) ++ fetched s)%list ≡ₚ urls;
  (* every fetch has one result: read, buffered, or about to be sent *)
  inv_results :
    fetched s ≡ₚ Url <$> (received s ++ results s ++ (workers s ≫= unsent))%list;
  (* a worker leaves only an empty queue *)
  inv_exited : tasks s = [] ∨ Forall (λ w, w ≠ Exited) (workers s);
  inv_orch :
    match orch s with
    | Collecting i ret =>
        i = length ret ∧ received s = ret ∧ Forall no_error ret ∧
        cancelCalls s = 0%nat
    | Returned (Some ret) None =>
        received s = ret ∧ length ret = length urls ∧ Forall no_error ret ∧
        cancelCalls s = 0%nat
    | Returned None (Some err) =>
        cancelCalls s = 1%nat ∧
        ∃ ret result e,
          received s = (ret ++ [result])%list ∧ Forall no_error ret ∧
          Err result = Some e ∧ err = download_failed result e
    | Returned _ _ => False
    end
}.

(** A deterministic schedule, for running the model: worker 0 does all the
    work, the orchestrator collects after each send. *)
Fixpoint solo (nets : list Exchange) : list Event :=
  match nets with
  | [] => []
  | net :: nets' => Take 0 :: Fetch 0 net :: Send 0 :: Collect :: solo nets'
  end.

(** Sample transports and batches. *)
Definition answers (status : Z) (body : string) : Exchange :=
  mkExchange None (inr (mkResponse status (mkBody body None))).

Definition batch_ab : list string := ["http://a"; "http://b"].
Definition sched_ab : list Event :=
  (solo [answers 200 "A"; answers 200 "B"] ++ [Collect])%list.

Definition batch_bad : list string := ["http://a"; "http://bad"].
(** Worker 1 fails on the second URL while worker 0 is still fetching. *)
Definition sched_bad : list Event :=
  [Take 0; Take 1; Fetch 1 (answers 500 "oops"); Send 1]%nat.

End Pool.

(** ** The request handler *)

Module Handler.
Import Limiter Pool.

(** A JSON text as [encoding/json] reads it: malformed, or a value. *)
#[local] Unset Elimination Schemes.
Inductive json : Type :=
| JNull
| JBool (b : bool)
| JNumber (literal : string)
| JString (s : string)
| JArray (elems : list json)
| JObject (members : list (string * json)).
#[local] Set Elimination Schemes.

Inductive Document : Type :=
| Malformed (syntax : error)
| WellFormed (v : json).

(** The request body as an [io.Reader]: what [ioutil.ReadAll] yields. *)
Record Reader : Type := mkReader {
  content : Document;
  broken : option error
}.

Definition ReadAll (r : Reader) : Document * option error := (content r, broken r).

Record Request : Type := mkRequest {
  Method : string;
  Body : Reader
}.

(** The map [jsonResponse] marshals: ["success": false] with a reason, or
    ["success": true] with the result. *)
Inductive Payload : Type :=
| Failure (reason : string)
| Success (result : option (list TaskResult)).

(** What was written to the [http.ResponseWriter]: the status ([200]
    when [WriteHeader] was not called) and the body. *)
Record Reply : Type := mkReply {
  status : Z;
  payload : Payload
}.

(** A run of [onRequest] up to its reply, or up to its call of
    [downloadUrls]: [resume] is the rest of the handler, given what the
    call returned and the limiter as it is by then. *)
Inductive Handling : Type :=
| Replied (c : ClientLimiter) (w : Reply)
| Downloading (c : ClientLimiter) (urls : list string)
    (resume : option (list TaskResult) * option error → ClientLimiter
              → ClientLimiter * Reply).

(** [json.Unmarshal] into [struct { Urls []string `json:"urls"` }], after
    the documentation of the package.  The folding of object keys and the
    type errors it reports belong to the library and are parameters.  A
    [[]string] is a list; the nil slice is the empty list, the program
    only takes its length and ranges over it. *)
Section Decode.
Variable EqualFold : string → string → bool.
Variable UnmarshalTypeError : json → error.

Definition first_error (e1 e2 : option error) : option error :=
  match e1 with Some e => Some e | None => e2 end.

(** null leaves a string as it is; a type error is kept and decoding
    goes on. *)
Definition decode_string (cur : string) (v : json) : string * option error :=
  match v with
  | JString s => (s, None)
  | JNull => (cur, None)
  | _ => (cur, Some (UnmarshalTypeError v))
  end.

Fixpoint decode_elems (cur : list string) (elems : list json)
  : list string * option error :=
  match elems with
  | [] => ([], None)
  | v :: elems' =>
      let '(x, e1) := decode_string (hd "" cur) v in
      let '(xs, e2) := decode_elems (tl cur) elems' in
      (x :: xs, first_error e1 e2)
  end.

(** null sets a slice to nil. *)
Definition decode_slice (cur : list string) (v : json)
  : list string * option error :=
  match v with
  | JNull => ([], None)
  | JArray elems => decode_elems cur elems
  | _ => (cur, Some (UnmarshalTypeError v))
  end.

(** A key names the field when it is its tag, exactly or up to case. *)
Definition names_urls (key : string) : bool :=
  String.eqb key "urls" || EqualFold key "urls".

(** The members of an object in order; keys that match no field are
    skipped. *)
Fixpoint decode_members (cur : list string) (members : list (string * json))
  : list string * option error :=
  match members with
  | [] => (cur, None)
  | (key, v) :: members' =>
      if names_urls key then
        let '(cur', e1) := decode_slice cur v in
        let '(urls, e2) := decode_members cur' members' in
        (urls, first_error e1 e2)
      else decode_members cur members'
  end.

Definition Unmarshal (data : Document) : list string * option error :=
  match data with
  | Malformed syntax => ([], Some syntax)
  | WellFormed JNull => ([], None)
  | WellFormed (JObject members) => decode_members [] members
  | WellFormed v => ([], Some (UnmarshalTypeError v))
  end.

Definition readRequest (r : Reader) : list string * option error :=
  let '(data, err) := ReadAll r in
  match err with
  | Some err => ([], Some err)
  | None =>
      let '(Urls, err) := Unmarshal data in
      match err with
      | Some err => ([], Some err)
      | None => (Urls, None)
      end
  end.

(** [None] when [Acquire] has not returned within [fuel] rounds. *)
Definition onRequest (fuel : nat) (c : ClientLimiter) (r : Request)
  : option Handling :=
  if negb (String.eqb (Method r) "POST") then
    Some (Replied c (mkReply 400 (Failure "Method not supported")))
  else
    match Acquire fuel c with
    | None => None
    | Some (Some _, c) =>
        Some (Replied c (mkReply 503 (Failure "Max parallel requests reached")))
    | Some (None, c) =>
        (* from here on [release] is deferred *)
        let '(urls, err) := readRequest (Body r) in
        match err with
        | Some err =>
            Some (Replied (release c) (mkReply 200 (Failure (Error err))))
        | None =>
            if (MaxUrlsPerRequest <? length urls)%nat then
              Some (Replied (release c)
                      (mkReply 200 (Failure "Number of urls exceeds the maximum")))
            else
              Some (Downloading c urls
                      (λ '(ret, err) c,
                         match err with
                         | Some err =>
                             (release c, mkReply 200 (Failure (Error err)))
                         | None => (release c, mkReply 200 (Success ret))
                         end))
        end
    end.

End Decode.

(** Key folding on ASCII letters, and a type error text, to run the
    handler on samples. *)
Definition lower (a : Ascii.ascii) : Ascii.ascii :=
  let n := Ascii.nat_of_ascii a in
  if ((65 <=? n) && (n <=? 90))%nat then Ascii.ascii_of_nat (n + 32) else a.

Fixpoint fold_ascii (s : string) : string :=
  match s with
  | EmptyString => EmptyString
  | String a s' => String (lower a) (fold_ascii s')
  end.

Definition EqualFold_ascii (s t : string) : bool :=
  String.eqb (fold_ascii s) (fold_ascii t).

Definition type_error_text (v : json) : error :=
  Errorf "json: cannot unmarshal value into Go value".

Definition many_urls (n : nat) : json :=
  JArray (replicate n (JString "http://a")).

Definition post (v : json) : Request :=
  mkRequest "POST" (mkReader (WellFormed v) None).

End Handler.

(** ** Vocabulary for further properties *)

Module Outcomes.
Import Fetch Pool.

(** The fetch of an event came back with an error. *)
Definition fetch_fails (e : Event) : Prop :=
  match e with
  | Fetch _ net => ∀ url, (downloadUrl net url).2 ≠ None
  | _ => False
  end.

(** The results produced so far: read, buffered, or about to be sent. *)
Definition produced (s : State) : list TaskResult :=
  (received s ++ results s ++ (workers s ≫= unsent))%list.

(** Some result produced so far carries an error. *)
Definition has_failed (s : State) : Prop :=
  Exists (λ r, Err r ≠ None) (produced s).

(** A caller of the limiter that has finished with it. *)
Definition finished (c : Limiter.Caller) : Prop :=
  c = Limiter.Rejected ∨ c = Limiter.Released.


(** A request body that reads to its end as the object with these members. *)
Definition object_body (members : list (string * Handler.json)) : Handler.Reader :=
  Handler.mkReader (Handler.WellFormed (Handler.JObject members)) None.

End Outcomes.

(** ** Properties of the limiter *)

Lemma wrap32_id (z : Z) : is_int32 z → wrap32 z = z.
Proof.
  unfold is_int32, int32_min, int32_max, wrap32. intros Hz.
  rewrite Z.mod_small by lia. lia.
Qed.

Module LimiterFacts.
Import Limiter.

(** C3.  Run on its own, [Acquire] returns within its first round: with the
    error exactly when the counter has reached the maximum, and otherwise
    with nil and the counter one higher.  Among concurrent callers the load
    and the swap of a round are steps that are always enabled: no caller
    waits for another. *)
Theorem Acquire_limit_iff (c : ClientLimiter) (fuel : nat) :
  is_int32 (MaxConcurrentClients c) →
  is_int32 (clientCount c) →
  (∃ err c',
     Acquire (S fuel) c = Some (err, c') ∧
     (err = Some limit_reached ↔ MaxConcurrentClients c <= clientCount c) ∧
     (MaxConcurrentClients c <= clientCount c → c' = c) ∧
     (clientCount c < MaxConcurrentClients c →
        err = None ∧ c' = with_count c (clientCount c + 1))) ∧
  (* among concurrent callers: the load rejects exactly at the maximum *)
  (∀ cs i, cs !! i = Some Entering →
     step (mkSystem c cs) i
     = Some (mkSystem c
               (<[i := if MaxConcurrentClients c <=? clientCount c
                       then Rejected else Loaded (clientCount c)]> cs))) ∧
  (* and the swap admits with the counter one higher, or sends the caller
     back to the load when another caller came first *)
  (∀ cs i current, cs !! i = Some (Loaded current) →
     current < MaxConcurrentClients c →
     step (mkSystem c cs) i
     = Some (if clientCount c =? current
             then mkSystem (with_count c (clientCount c + 1)) (<[i := Holding]> cs)
             else mkSystem c (<[i := Entering]> cs))).
Proof.
  intros Hmax Hcnt. split; [|split].
  - cbn [Acquire]. unfold do, LoadInt32, CompareAndSwapInt32.
    destruct (Z.leb_spec (MaxConcurrentClients c) (clientCount c)) as [Hle|Hlt].
    + exists (Some limit_reached), c. repeat split; auto; lia.
    + rewrite Z.eqb_refl. cbn.
      rewrite wrap32_id by (unfold is_int32, int32_min, int32_max in *; lia).
      exists None, (with_count c (clientCount c + 1)).
      repeat split; try (intros; lia); auto; discriminate.
  - intros cs i Hi. unfold step. cbn [callers limiter]. rewrite Hi.
    unfold LoadInt32.
    destruct (MaxConcurrentClients c <=? clientCount c); reflexivity.
  - intros cs i current Hi Hlt. unfold step. cbn [callers limiter].
    rewrite Hi. unfold CompareAndSwapInt32.
    destruct (Z.eqb_spec (clientCount c) current) as [Heq|Hne]; [|reflexivity].
    subst current.
    rewrite wrap32_id by (unfold is_int32, int32_min, int32_max in *; lia).
    reflexivity.
Qed.

Lemma Acquire_limit_iff_witness :
  (∃ err c',
     Acquire 1 (mkLimiter 100 99) = Some (err, c') ∧
     (err = Some limit_reached ↔ 100 <= 99) ∧
     (100 <= 99 → c' = mkLimiter 100 99) ∧
     (99 < 100 → err = None ∧ c' = mkLimiter 100 100)) ∧
  Acquire 1 (mkLimiter 100 100) = Some (Some limit_reached, mkLimiter 100 100).
Proof.
  split; [|reflexivity].
  refine (proj1 (Acquire_limit_iff (mkLimiter 100 99) 0 _ _));
    unfold is_int32, int32_min, int32_max; cbn; lia.
Defined.

(** *** The counter under concurrent callers *)

Lemma holders_insert (cs : list Caller) (i : nat) (old new : Caller) :
  cs !! i = Some old →
  holders (<[i := new]> cs) = holders cs - holds old + holds new.
Proof.
  revert i. induction cs as [|c cs IH]; intros [|i] Hi; try discriminate.
  - injection Hi as ->. cbn. lia.
  - cbn in Hi. specialize (IH i Hi).
    change (holds c + holders (<[i := new]> cs)
            = holds c + holders cs - holds old + holds new). lia.
Qed.

Lemma holders_nonneg (cs : list Caller) : 0 <= holders cs.
Proof. induction cs as [|[] cs IH]; cbn; lia. Qed.

Lemma holders_replicate_Entering (n : nat) : holders (replicate n Entering) = 0.
Proof. induction n as [|n IH]; cbn; [reflexivity | rewrite IH; reflexivity]. Qed.

Lemma limiter_Inv_init (max : Z) (n : nat) : 0 <= max → Inv max (init max n).
Proof.
  intros Hmax. split; cbn; rewrite ?holders_replicate_Entering; auto.
  intros i cur Hi. apply lookup_replicate in Hi as [? _]. discriminate.
Qed.

Ltac loaded_elsewhere H :=
  match goal with
  | Hj : <[?i := _]> _ !! ?j = Some (Loaded _) |- _ =>
      destruct (decide (i = j)) as [->|Hne];
      [ rewrite list_lookup_insert_eq in Hj by (eapply lookup_lt_Some; eauto);
        try discriminate
      | rewrite list_lookup_insert_ne in Hj by assumption; eauto using H ]
  end.

Lemma limiter_Inv_step (max : Z) (s s' : System) (i : nat) :
  is_int32 max → Inv max s → step s i = Some s' → Inv max s'.
Proof.
  intros Hint [Hm Hc Hb Hl]. unfold step.
  destruct (callers s !! i) as [[|cur| | |]|] eqn:Hi; try discriminate.
  - unfold LoadInt32.
    destruct (Z.leb_spec (MaxConcurrentClients (limiter s)) (clientCount (limiter s)));
      intros [= <-]; split; cbn; auto;
      rewrite ?(holders_insert _ _ _ _ Hi); cbn; try lia;
      intros j c Hj; loaded_elsewhere Hl.
    injection Hj as <-. lia.
  - unfold CompareAndSwapInt32.
    destruct (Z.eqb_spec (clientCount (limiter s)) cur) as [Heq|Hneq];
      intros [= <-]; split; cbn; auto;
      rewrite ?(holders_insert _ _ _ _ Hi); cbn; try lia.
    + pose proof (Hl _ _ Hi). pose proof (holders_nonneg (callers s)).
      rewrite wrap32_id by (unfold is_int32, int32_min, int32_max in *; lia). lia.
    + pose proof (Hl _ _ Hi). lia.
    + intros j c Hj; loaded_elsewhere Hl.
    + intros j c Hj; loaded_elsewhere Hl.
  - intros [= <-]. unfold release, AddInt32.
    pose proof (holders_nonneg (callers s)).
    assert (1 <= holders (callers s)) as Hpos.
    { pose proof (holders_nonneg (<[i := Released]> (callers s))) as Hn.
      rewrite (holders_insert _ _ _ _ Hi) in Hn. cbn in Hn. lia. }
    split; cbn; auto; rewrite ?(holders_insert _ _ _ _ Hi); cbn; try lia.
    + rewrite wrap32_id by (unfold is_int32, int32_min, int32_max in *; lia). lia.
    + intros j c Hj; loaded_elsewhere Hl.
Qed.

Lemma limiter_Inv_run (max : Z) (sched : list nat) (s s' : System) :
  is_int32 max → Inv max s → run s sched = Some s' → Inv max s'.
Proof.
  intros Hint. revert s. induction sched as [|i sched IH]; intros s HI; cbn.
  - intros [= <-]. exact HI.
  - destruct (step s i) as [s1|] eqn:Hs; [|discriminate].
    apply IH. eapply limiter_Inv_step; eauto.
Qed.

(** C4.  Whatever the number of callers and however their loads, swaps and
    releases interleave, the counter stays between 0 and the maximum; it is
    the number of callers holding a slot. *)
Theorem clientCount_in_range (max : Z) (n : nat) (sched : list nat) (s : System) :
  0 <= max → is_int32 max →
  run (init max n) sched = Some s →
  0 <= clientCount (limiter s) <= MaxConcurrentClients (limiter s) ∧
  MaxConcurrentClients (limiter s) = max ∧
  clientCount (limiter s) = holders (callers s).
Proof.
  intros Hpos Hint Hrun.
  destruct (limiter_Inv_run max sched _ _ Hint (limiter_Inv_init max n Hpos) Hrun) as [Hm Hc Hb _].
  pose proof (holders_nonneg (callers s)). lia.
Qed.

(** Two callers at a limiter of one slot: the first takes it, the second
    loads a full counter and is rejected, the first releases. *)
Lemma clientCount_in_range_witness :
  ∃ s, run (init 1 2) [0; 0; 1; 0]%nat = Some s ∧
       callers s = [Released; Rejected] ∧
       0 <= clientCount (limiter s) <= MaxConcurrentClients (limiter s) ∧
       MaxConcurrentClients (limiter s) = 1 ∧
       clientCount (limiter s) = holders (callers s).
Proof.
  eexists. split; [vm_compute; reflexivity|]. split; [reflexivity|].
  apply (clientCount_in_range 1 2 [0; 0; 1; 0]%nat);
    [lia | unfold is_int32, int32_min, int32_max; lia | reflexivity].
Defined.

End LimiterFacts.

(** ** Properties of the fetch unit *)

Module FetchFacts.
Import Fetch.

Example fmt_d_404 : fmt_d 404 = "404".
Proof. reflexivity. Qed.

Example fmt_d_negative : fmt_d (-1) = "-1".
Proof. reflexivity. Qed.

(** C6.  On a response whose status is outside [200, 300), [downloadUrl]
    returns the nil slice and an error: the status code followed by the
    error body in parentheses when the body could be read, the status code
    alone when reading it failed. *)
Theorem downloadUrl_bad_status (net : Exchange) (url : string) (resp : Response) :
  NewRequestWithContext net = None → Do net = inr resp →
  ¬ (200 <= StatusCode resp < 300) →
  (∀ errorData, ReadAll (RespBody resp) = (errorData, None) →
     downloadUrl net url
     = (None, Some (Errorf ("status code: " ++ fmt_d (StatusCode resp)
                              ++ " (" ++ errorData ++ ")")))) ∧
  (∀ partial err, ReadAll (RespBody resp) = (partial, Some err) →
     downloadUrl net url
     = (None, Some (Errorf ("status code: " ++ fmt_d (StatusCode resp))))).
Proof.
  intros Hreq Hdo Hstatus. unfold downloadUrl. rewrite Hreq, Hdo.
  assert (negb ((200 <=? StatusCode resp) && (StatusCode resp <? 300)) = true)
    as ->.
  { destruct (Z.leb_spec 200 (StatusCode resp));
      destruct (Z.ltb_spec (StatusCode resp) 300); cbn; auto; lia. }
  split; [intros errorData | intros partial err]; intros ->; reflexivity.
Qed.

Lemma downloadUrl_bad_status_witness :
  downloadUrl (answers_404 "not found" None) "http://a"
  = (None, Some (Errorf "status code: 404 (not found)")) ∧
  downloadUrl (answers_404 "par" (Some (Errorf "unexpected EOF"))) "http://a"
  = (None, Some (Errorf "status code: 404")).
Proof.
  split.
  - refine (proj1 (downloadUrl_bad_status (answers_404 "not found" None)
                     "http://a" _ eq_refl eq_refl _) "not found" eq_refl).
    cbn; lia.
  - refine (proj2 (downloadUrl_bad_status
                     (answers_404 "par" (Some (Errorf "unexpected EOF")))
                     "http://a" _ eq_refl eq_refl _)
                  "par" (Errorf "unexpected EOF") eq_refl).
    cbn; lia.
Defined.

End FetchFacts.

(** ** Properties of the worker pool and the orchestrator *)

Module PoolFacts.
Import Fetch Pool.
Local Open Scope list_scope.

Lemma bind_insert {A} (f : Worker → list A) (ws : list Worker) (w : nat)
    (old new : Worker) :
  ws !! w = Some old →
  f old ++ (<[w := new]> ws ≫= f) ≡ₚ f new ++ (ws ≫= f).
Proof.
  revert w. induction ws as [|x ws IH]; intros [|w] Hw; try discriminate.
  - injection Hw as ->.
    change (<[0%nat := new]> (old :: ws)) with (new :: ws).
    rewrite !bind_cons. solve_Permutation.
  - cbn in Hw. specialize (IH w Hw).
    change (<[S w := new]> (x :: ws)) with (x :: <[w := new]> ws).
    rewrite !bind_cons.
    rewrite (Permutation_app_swap_app (f old)), IH. solve_Permutation.
Qed.

Lemma batch_Inv_init (urls : list string) : Inv urls (init urls).
Proof.
  split; cbn; auto.
  - rewrite app_nil_r. reflexivity.
  - right. repeat constructor; discriminate.
Qed.

(** The books balance: URLs queued, in flight, unsent, buffered and read
    add up to the batch. *)
Lemma batch_Inv_count (urls : list string) (s : State) :
  Inv urls s →
  (length (tasks s) + length (workers s ≫= in_flight)
   + length (workers s ≫= unsent) + length (results s)
   + length (received s) = length urls)%nat.
Proof.
  intros [_ Ht Hr _ _].
  apply Permutation_length in Ht, Hr.
  rewrite !length_app in Ht. rewrite length_fmap, !length_app in Hr. lia.
Qed.

Lemma batch_Inv_step (urls : list string) (s s' : State) (e : Event) :
  Inv urls s → step urls s e = Some s' → Inv urls s'.
Proof.
  intros HI Hstep. pose proof (batch_Inv_count _ _ HI) as Hcount.
  destruct HI as [Hw Ht Hr Hx Ho].
  destruct e as [w|w net|w|]; unfold step in Hstep.
  - (* Take *)
    destruct (workers s !! w) as [[| | |]|] eqn:Hlk; try discriminate.
    pose proof (bind_insert in_flight (workers s) w _ Exited Hlk) as Hf1.
    pose proof (bind_insert unsent (workers s) w _ Exited Hlk) as Hu1.
    destruct (tasks s) as [|url rest] eqn:Htasks.
    + injection Hstep as <-. cbn in *.
      split; cbn; rewrite ?length_insert; auto.
      * rewrite Htasks, Hf1. exact Ht.
      * rewrite Hu1. exact Hr.
    + injection Hstep as <-.
      pose proof (bind_insert in_flight (workers s) w _ (Fetching url) Hlk) as Hf2.
      pose proof (bind_insert unsent (workers s) w _ (Fetching url) Hlk) as Hu2.
      cbn in *.
      split; cbn; rewrite ?length_insert; auto.
      * rewrite Hf2, <- Ht. solve_Permutation.
      * rewrite Hu2. exact Hr.
      * right. destruct Hx as [|Hx]; [discriminate|].
        apply Forall_insert; [exact Hx | discriminate].
  - (* Fetch *)
    destruct (workers s !! w) as [[|url| |]|] eqn:Hlk; try discriminate.
    destruct (downloadUrl net url) as [ret err].
    injection Hstep as <-.
    set (r := {| Url := url; Result := string_of_bytes ret; Err := err |}).
    pose proof (bind_insert in_flight (workers s) w _ (Sending r) Hlk) as Hf.
    pose proof (bind_insert unsent (workers s) w _ (Sending r) Hlk) as Hu.
    cbn in Hf, Hu.
    split; cbn; rewrite ?length_insert; auto.
    + rewrite <- Ht, <- Hf. solve_Permutation.
    + rewrite Hu, Hr, !fmap_app. cbn. solve_Permutation.
    + destruct Hx as [|Hx]; [auto|right].
      apply Forall_insert; [exact Hx | discriminate].
  - (* Send *)
    destruct (workers s !! w) as [[| |r|]|] eqn:Hlk; try discriminate.
    destruct (length (results s) <? length urls)%nat; [|discriminate].
    injection Hstep as <-.
    pose proof (bind_insert in_flight (workers s) w _ Ranging Hlk) as Hf.
    pose proof (bind_insert unsent (workers s) w _ Ranging Hlk) as Hu.
    cbn in Hf, Hu.
    split; cbn; rewrite ?length_insert; auto.
    + rewrite Hf. exact Ht.
    + rewrite Hr, <- Hu, !fmap_app. cbn. solve_Permutation.
    + destruct Hx as [|Hx]; [auto|right].
      apply Forall_insert; [exact Hx | discriminate].
  - (* Collect *)
    destruct (orch s) as [i ret|] eqn:Horch; [|discriminate].
    destruct Ho as (Hi & Hrecv & Hok & Hc).
    destruct (Nat.ltb_spec i (length urls)) as [Hlt|Hge].
    + destruct (results s) as [|result rest] eqn:Hres; [discriminate|].
      destruct (Err result) as [e|] eqn:He; injection Hstep as <-.
      * split; cbn; auto.
        -- rewrite Hr, !fmap_app. cbn. solve_Permutation.
        -- split; [lia|]. exists ret, result, e. rewrite Hrecv. auto.
      * split; cbn; auto.
        -- rewrite Hr, !fmap_app. cbn. solve_Permutation.
        -- rewrite length_app, Hrecv. cbn. repeat split; auto; [lia|].
           apply Forall_app. split; [exact Hok|]. constructor; auto.
    + injection Hstep as <-. split; cbn; auto.
      repeat split; auto. rewrite Hrecv in Hcount. lia.
Qed.

Lemma batch_Inv_run (urls : list string) (evs : list Event) (s s' : State) :
  Inv urls s → run urls s evs = Some s' → Inv urls s'.
Proof.
  revert s. induction evs as [|e evs IH]; intros s HI; cbn.
  - intros [= <-]. exact HI.
  - destruct (step urls s e) as [s1|] eqn:Hs; [|discriminate].
    apply IH. eapply batch_Inv_step; eauto.
Qed.

Lemma reachable_Inv (urls : list string) (evs : list Event) (s : State) :
  run urls (init urls) evs = Some s → Inv urls s.
Proof. apply batch_Inv_run, batch_Inv_init. Qed.

(** *** Every step uses up one of the steps left *)

Lemma worker_steps_insert (ws : list Worker) (w : nat) (old new : Worker) :
  ws !! w = Some old →
  (pool_steps (<[w := new]> ws) + worker_steps old
   = pool_steps ws + worker_steps new)%nat.
Proof.
  revert w. induction ws as [|x ws IH]; intros [|w] Hw; try discriminate.
  - injection Hw as ->. cbn. lia.
  - cbn in Hw. specialize (IH w Hw).
    change (pool_steps (<[S w := new]> (x :: ws)))
      with (worker_steps x + pool_steps (<[w := new]> ws))%nat.
    cbn [pool_steps]. lia.
Qed.

Lemma step_steps_left (urls : list string) (s s' : State) (e : Event) :
  step urls s e = Some s' → (steps_left urls s' < steps_left urls s)%nat.
Proof.
  unfold step, steps_left. destruct e as [w|w net|w|].
  - destruct (workers s !! w) as [[| | |]|] eqn:Hlk; try discriminate.
    destruct (tasks s) as [|url rest] eqn:Htasks; intros [= <-];
      cbn [tasks workers orch set_worker]; rewrite ?Htasks.
    + pose proof (worker_steps_insert _ _ _ Exited Hlk). cbn in *. lia.
    + pose proof (worker_steps_insert _ _ _ (Fetching url) Hlk). cbn in *. lia.
  - destruct (workers s !! w) as [[|url| |]|] eqn:Hlk; try discriminate.
    destruct (downloadUrl net url) as [ret err]. intros [= <-].
    cbn [tasks workers orch].
    match goal with |- context [<[w := ?x]> _] =>
      pose proof (worker_steps_insert _ _ _ x Hlk) end. cbn in *. lia.
  - destruct (workers s !! w) as [[| |r|]|] eqn:Hlk; try discriminate.
    destruct (length (results s) <? length urls)%nat; [|discriminate].
    intros [= <-]. cbn [tasks workers orch].
    pose proof (worker_steps_insert _ _ _ Ranging Hlk). cbn in *. lia.
  - destruct (orch s) as [i ret|]; [|discriminate].
    destruct (Nat.ltb_spec i (length urls)).
    + destruct (results s) as [|result rest]; [discriminate|].
      destruct (Err result); intros [= <-]; cbn; lia.
    + intros [= <-]. cbn. lia.
Qed.

Lemma run_steps_left (urls : list string) (evs : list Event) (s s' : State) :
  run urls s evs = Some s' →
  (length evs + steps_left urls s' <= steps_left urls s)%nat.
Proof.
  revert s. induction evs as [|e evs IH]; intros s; cbn [run length].
  - intros [= <-]. lia.
  - destruct (step urls s e) as [s1|] eqn:Hs; [|discriminate].
    intros Hrun. apply IH in Hrun. apply step_steps_left in Hs. lia.
Qed.

Lemma steps_left_init (urls : list string) :
  steps_left urls (init urls)
  = (4 * length urls + MaxConcurrentTasksPerRequest + 1)%nat.
Proof. unfold steps_left, MaxConcurrentTasksPerRequest. cbn. lia. Qed.

(** *** Once the orchestrator has returned *)

Lemma step_Returned (urls : list string) (s s' : State) (e : Event)
    (ret : option (list TaskResult)) (err : option error) :
  orch s = Returned ret err → step urls s e = Some s' →
  orch s' = Returned ret err ∧ received s' = received s ∧
  cancelCalls s' = cancelCalls s.
Proof.
  intros Ho. unfold step. destruct e as [w|w net|w|].
  - destruct (workers s !! w) as [[| | |]|]; try discriminate.
    destruct (tasks s); intros [= <-]; auto.
  - destruct (workers s !! w) as [[|url| |]|]; try discriminate.
    destruct (downloadUrl net url). intros [= <-]; auto.
  - destruct (workers s !! w) as [[| |r|]|]; try discriminate.
    destruct (length (results s) <? length urls)%nat; [|discriminate].
    intros [= <-]; auto.
  - rewrite Ho. discriminate.
Qed.

Lemma run_Returned (urls : list string) (evs : list Event) (s s' : State)
    (ret : option (list TaskResult)) (err : option error) :
  orch s = Returned ret err → run urls s evs = Some s' →
  orch s' = Returned ret err ∧ received s' = received s ∧
  cancelCalls s' = cancelCalls s.
Proof.
  revert s. induction evs as [|e evs IH]; intros s Ho; cbn.
  - intros [= <-]. auto.
  - destruct (step urls s e) as [s1|] eqn:Hs; [|discriminate].
    destruct (step_Returned _ _ _ _ _ _ Ho Hs) as (Ho1 & <- & <-).
    apply IH. exact Ho1.
Qed.

(** *** No goroutine of a batch is ever stuck *)

Lemma bind_lookup_length {A} (f : Worker → list A) (ws : list Worker)
    (w : nat) (x : Worker) :
  ws !! w = Some x → (length (f x) <= length (ws ≫= f))%nat.
Proof.
  intros Hw.
  replace (ws ≫= f) with ((take w ws ++ x :: drop (S w) ws) ≫= f)
    by (rewrite take_drop_middle; auto).
  rewrite bind_app, bind_cons, !length_app. lia.
Qed.

Lemma exited_or_not (ws : list Worker) :
  Forall (λ w, w = Exited) ws ∨ ∃ i x, ws !! i = Some x ∧ x ≠ Exited.
Proof.
  induction ws as [|x ws [IH|(i & y & Hi & Hy)]].
  - left. constructor.
  - destruct x; [right; exists 0%nat; eexists; split; [reflexivity|discriminate]..|].
    left. constructor; auto.
  - right. exists (S i), y. auto.
Qed.

Lemma bind_all_exited {A} (f : Worker → list A) (ws : list Worker) :
  f Exited = [] → Forall (λ w, w = Exited) ws → ws ≫= f = [].
Proof.
  intros Hf. induction 1 as [|x ws -> _ IH]; [reflexivity|].
  rewrite bind_cons, Hf, IH. reflexivity.
Qed.

(** A worker that has not left its loop can take its next step: the queue
    is closed, and [results] has room for every result of the batch. *)
Lemma worker_can_step (urls : list string) (s : State) (w : nat) (x : Worker) :
  Inv urls s → workers s !! w = Some x → x ≠ Exited →
  ∃ e s', step urls s e = Some s'.
Proof.
  intros HI Hw Hx. pose proof (batch_Inv_count _ _ HI) as Hcount.
  destruct x as [|url|r|]; [| | |congruence].
  - exists (Take w). unfold step. rewrite Hw.
    destruct (tasks s); eexists; reflexivity.
  - exists (Fetch w (mkExchange None (inl (Errorf "")))). unfold step.
    rewrite Hw. eexists; reflexivity.
  - exists (Send w). unfold step. rewrite Hw.
    pose proof (bind_lookup_length unsent _ _ _ Hw) as Hlen. cbn in Hlen.
    destruct (Nat.ltb_spec (length (results s)) (length urls));
      [eexists; reflexivity | lia].
Qed.

(** A batch has run to its end exactly when every worker has left its loop
    and the orchestrator has returned. *)
Lemma quiescent_iff (urls : list string) (s : State) :
  Inv urls s →
  quiescent urls s ↔
  Forall (λ w, w = Exited) (workers s) ∧ ∃ ret err, orch s = Returned ret err.
Proof.
  intros HI. pose proof (batch_Inv_count _ _ HI) as Hcount. split.
  - intros Hq.
    destruct (exited_or_not (workers s)) as [Hall|(i & x & Hi & Hx)].
    + split; [exact Hall|].
      destruct (orch s) as [i ret|ret err] eqn:Ho; [exfalso|eauto].
      rewrite (bind_all_exited in_flight), (bind_all_exited unsent) in Hcount
        by auto.
      destruct HI as [Hw _ _ Hexit Horch]. rewrite Ho in Horch.
      destruct Horch as (-> & Hrecv & _ & _).
      assert (tasks s = []) as Ht.
      { destruct Hexit as [|Hne]; [assumption|].
        destruct (workers s) as [|x ws]; [discriminate|].
        inversion Hall; inversion Hne; subst. congruence. }
      rewrite Ht, Hrecv in Hcount. cbn in Hcount.
      specialize (Hq Collect). unfold step in Hq. rewrite Ho in Hq.
      destruct (Nat.ltb_spec (length ret) (length urls)); [|discriminate].
      destruct (results s) as [|result rest]; [cbn in Hcount; lia|].
      destruct (Err result); discriminate.
    + destruct (worker_can_step _ _ _ _ HI Hi Hx) as (e & s' & Hs).
      rewrite (Hq e) in Hs. discriminate.
  - intros [Hall (ret & err & Ho)] e.
    assert (∀ w, workers s !! w = Some Exited ∨ workers s !! w = None) as Hlk.
    { intros w. destruct (workers s !! w) as [x|] eqn:Hw; [left|auto].
      f_equal. eapply Forall_lookup_1 in Hall; eauto. }
    destruct e as [w|w net|w|]; unfold step;
      try (destruct (Hlk w) as [-> | ->]; reflexivity).
    rewrite Ho. reflexivity.
Qed.

Lemma progress (urls : list string) (s : State) :
  Inv urls s → quiescent urls s ∨ ∃ e s', step urls s e = Some s'.
Proof.
  intros HI.
  destruct (exited_or_not (workers s)) as [Hall|(i & x & Hi & Hx)].
  - destruct (step urls s Collect) as [s'|] eqn:Hc; [right; eauto|left].
    apply quiescent_iff; [assumption|]. split; [assumption|].
    destruct (orch s) as [n ret|ret err] eqn:Ho; [exfalso|eauto].
    assert (∀ e, step urls s e = None) as Hq.
    { assert (∀ w, workers s !! w = Some Exited ∨ workers s !! w = None) as Hlk.
      { intros w. destruct (workers s !! w) as [y|] eqn:Hw; [left|auto].
        f_equal. eapply Forall_lookup_1 in Hall; eauto. }
      intros [w|w net|w|];
        [unfold step; destruct (Hlk w) as [-> | ->]; reflexivity..|].
      exact Hc. }
    apply (quiescent_iff urls s HI) in Hq as [_ (? & ? & ?)]. congruence.
  - right. eapply worker_can_step; eauto.
Qed.

(** *** Batches in which every fetch succeeds *)





(** With everything read and every result accounted for, the results read
    are those of the batch. *)
Lemma received_all (urls : list string) (s : State) :
  Inv urls s → length (received s) = length urls →
  Url <$> received s ≡ₚ urls ∧ fetched s ≡ₚ urls.
Proof.
  intros HI Hlen. pose proof (batch_Inv_count _ _ HI) as Hcount.
  destruct HI as [_ Ht Hr _ _].
  assert (tasks s = []) as Et by (apply length_zero_iff_nil; lia).
  assert (workers s ≫= in_flight = []) as Ef by (apply length_zero_iff_nil; lia).
  assert (workers s ≫= unsent = []) as Eu by (apply length_zero_iff_nil; lia).
  assert (results s = []) as Er by (apply length_zero_iff_nil; lia).
  rewrite Et, Ef in Ht. rewrite Er, Eu, !app_nil_r in Hr. cbn in Ht.
  split; [rewrite <- Hr|]; exact Ht.
Qed.

(** *** The claims about [downloadUrls] *)



(** C2.  When the next result the orchestrator reads carries an error, no
    result read before did, and its turn triggers the cancellation (for the
    first time) and returns the nil slice with the error naming that URL
    and its cause; whatever the workers do afterwards, the orchestrator
    reads nothing more and its result stands. *)
Theorem first_error_fails_batch (urls : list string) (evs : list Event)
    (s : State) (i : nat) (ret : list TaskResult) (result : TaskResult)
    (rest : list TaskResult) (cause : error) :
  run urls (init urls) evs = Some s →
  orch s = Collecting i ret → results s = result :: rest →
  Err result = Some cause →
  Forall no_error ret ∧ cancelCalls s = 0%nat ∧
  ∃ s', step urls s Collect = Some s' ∧
        cancelCalls s' = 1%nat ∧
        orch s' = Returned None
                    (Some (Errorf ("failed to download Url " ++ dquote
                                     ++ Url result ++ dquote ++ ": "
                                     ++ Error cause)%string)) ∧
        received s' = ret ++ [result] ∧ results s' = rest ∧
        ∀ evs' s'', run urls s' evs' = Some s'' →
                    orch s'' = orch s' ∧ received s'' = received s' ∧
                    cancelCalls s'' = 1%nat ∧ step urls s'' Collect = None.
Proof.
  intros Hrun Ho Hres Herr.
  pose proof (reachable_Inv _ _ _ Hrun) as HI.
  pose proof (batch_Inv_count _ _ HI) as Hcount.
  pose proof (inv_orch _ _ HI) as Horch. rewrite Ho in Horch.
  destruct Horch as (Hi & Hrecv & Hall & Hc).
  rewrite Hres, Hrecv in Hcount. cbn in Hcount.
  split; [exact Hall|]. split; [exact Hc|].
  eexists. split.
  { unfold step. rewrite Ho, Hres, Herr.
    destruct (Nat.ltb_spec i (length urls)); [reflexivity|lia]. }
  cbn. rewrite Hc, Hrecv. repeat split.
  all: match goal with
       | H : run _ _ _ = Some _ |- _ =>
           eapply run_Returned in H as (Ho' & Hr' & Hc'); [|reflexivity]
       end; cbn in *; auto.
  unfold step. rewrite Ho'. reflexivity.
Qed.

Lemma first_error_fails_batch_witness :
  ∃ s s', run batch_bad (init batch_bad) sched_bad = Some s ∧
          workers s !! 0%nat = Some (Fetching "http://a") ∧
          step batch_bad s Collect = Some s' ∧
          cancelCalls s' = 1%nat ∧
          orch s' = Returned None
            (Some (Errorf ("failed to download Url " ++ dquote ++ "http://bad"
                             ++ dquote ++ ": status code: 500 (oops)")%string)).
Proof.
  eexists. eexists. split; [vm_compute; reflexivity|]. split; [reflexivity|].
  destruct (first_error_fails_batch batch_bad sched_bad _ 0 []
              (mkTaskResult "http://bad" "" (Some (Errorf "status code: 500 (oops)")))
              [] (Errorf "status code: 500 (oops)")
              eq_refl eq_refl eq_refl eq_refl)
    as (_ & _ & s' & Hstep & Hc & Ho & _).
  cbn in Hstep. injection Hstep as <-. repeat split.
Defined.

(** C5.  The batch starts with an untriggered cancellation token of its
    own; [cancelRequests] is called at most once in the whole batch, and
    the one step that can call it is the orchestrator's turn that reads the
    first failing result, after which the batch has failed. *)
Theorem cancel_at_most_once (urls : list string) (evs : list Event) (s : State) :
  run urls (init urls) evs = Some s →
  cancelCalls (init urls) = 0%nat ∧
  (cancelCalls s <= 1)%nat ∧
  (cancelCalls s = 1%nat ↔ ∃ err, orch s = Returned None (Some err)) ∧
  (∀ e s', step urls s e = Some s' → cancelCalls s' ≠ cancelCalls s →
     e = Collect ∧ cancelCalls s = 0%nat ∧ cancelCalls s' = 1%nat ∧
     ∃ i ret result rest cause,
       orch s = Collecting i ret ∧ Forall no_error ret ∧
       results s = result :: rest ∧ Err result = Some cause ∧
       orch s' = Returned None (Some (download_failed result cause))).
Proof.
  intros Hrun. pose proof (reachable_Inv _ _ _ Hrun) as HI.
  pose proof (inv_orch _ _ HI) as Horch.
  split; [reflexivity|]. split; [|split].
  - destruct (orch s) as [i ret|[ret|] [err|]]; try tauto;
      destruct Horch as (? & ?); lia.
  - split.
    + intros Hc. destruct (orch s) as [i ret|[ret|] [err|]]; try tauto; eauto;
        destruct Horch as (? & ? & ? & ?); lia.
    + intros [err Ho]. rewrite Ho in Horch. tauto.
  - intros e s' Hstep Hne. unfold step in Hstep.
    destruct e as [w|w net|w|].
    + destruct (workers s !! w) as [[| | |]|]; try discriminate.
      destruct (tasks s); injection Hstep as <-; cbn in Hne; congruence.
    + destruct (workers s !! w) as [[|url| |]|]; try discriminate.
      destruct (downloadUrl net url). injection Hstep as <-. cbn in Hne.
      congruence.
    + destruct (workers s !! w) as [[| |r|]|]; try discriminate.
      destruct (length (results s) <? length urls)%nat; [|discriminate].
      injection Hstep as <-. cbn in Hne. congruence.
    + destruct (orch s) as [i ret|] eqn:Ho; [|discriminate].
      destruct Horch as (_ & _ & Hall & Hc).
      destruct (i <? length urls)%nat.
      * destruct (results s) as [|result rest]; [discriminate|].
        destruct (Err result) as [cause|] eqn:He; injection Hstep as <-;
          cbn in *; [|congruence].
        repeat split; auto; try lia.
        exists i, ret, result, rest, cause. auto.
      * injection Hstep as <-. cbn in Hne. congruence.
Qed.

Lemma cancel_at_most_once_witness :
  ∃ s, run batch_bad (init batch_bad) (sched_bad ++ [Collect]) = Some s ∧
       cancelCalls s = 1%nat ∧
       cancelCalls (init batch_bad) = 0%nat ∧
       (cancelCalls s <= 1)%nat ∧
       (cancelCalls s = 1%nat ↔ ∃ err, orch s = Returned None (Some err)) ∧
       (∀ e s', step batch_bad s e = Some s' → cancelCalls s' ≠ cancelCalls s →
          e = Collect ∧ cancelCalls s = 0%nat ∧ cancelCalls s' = 1%nat ∧
          ∃ i ret result rest cause,
            orch s = Collecting i ret ∧ Forall no_error ret ∧
            results s = result :: rest ∧ Err result = Some cause ∧
            orch s' = Returned None (Some (download_failed result cause))).
Proof.
  eexists. split; [vm_compute; reflexivity|]. split; [reflexivity|].
  apply (cancel_at_most_once batch_bad (sched_bad ++ [Collect])). reflexivity.
Defined.



(** The states of the empty batch. *)
Lemma empty_batch_states (evs : list Event) (s : State) :
  run [] (init []) evs = Some s →
  fetched s = [] ∧ workers s ≫= in_flight = [] ∧ workers s ≫= unsent = [] ∧
  results s = [] ∧ received s = [] ∧ cancelCalls s = 0%nat ∧
  (orch s = Returned (Some []) None ∨
   orch s = Collecting 0 [] ∧
   ∃ s', step [] s Collect = Some s' ∧ orch s' = Returned (Some []) None).
Proof.
  intros Hrun. pose proof (reachable_Inv _ _ _ Hrun) as HI.
  pose proof (batch_Inv_count _ _ HI) as Hcount. cbn in Hcount.
  pose proof (inv_tasks _ _ HI) as Ht. apply Permutation_length in Ht.
  rewrite !length_app in Ht. cbn in Ht.
  assert (received s = []) as Er by (apply length_zero_iff_nil; lia).
  repeat (split; [apply length_zero_iff_nil; lia|]).
  pose proof (inv_orch _ _ HI) as Horch.
  destruct (orch s) as [i ret|[ret|] [err|]] eqn:Ho; try tauto.
  - destruct Horch as (-> & Hrecv & _ & Hc). rewrite Er in Hrecv. subst ret.
    split; [exact Hc|]. right. split; [reflexivity|].
    unfold step. rewrite Ho. cbn. eauto.
  - destruct Horch as (Hrecv & _ & _ & Hc). rewrite Er in Hrecv. subst ret.
    auto.
  - destruct Horch as (_ & r0 & result & e & Hrecv & _).
    rewrite Er in Hrecv. destruct r0; discriminate.
Qed.

(** C8.  In the empty batch no fetch is ever made and no result is ever
    produced or awaited: at every moment the orchestrator has either
    returned the empty list with the nil error, or its next turn does so
    without reading from [results]; its very first turn does. *)
Theorem empty_batch (evs : list Event) (s : State) :
  run [] (init []) evs = Some s →
  (∃ s0, step [] (init []) Collect = Some s0 ∧
         orch s0 = Returned (Some []) None) ∧
  fetched s = [] ∧ workers s ≫= in_flight = [] ∧ workers s ≫= unsent = [] ∧
  results s = [] ∧ received s = [] ∧ cancelCalls s = 0%nat ∧
  (orch s = Returned (Some []) None ∨
   orch s = Collecting 0 [] ∧
   ∃ s', step [] s Collect = Some s' ∧ orch s' = Returned (Some []) None).
Proof.
  intros Hrun. split; [eexists; split; reflexivity|].
  exact (empty_batch_states evs s Hrun).
Qed.

Lemma empty_batch_witness :
  ∃ s, run [] (init []) [Take 0%nat; Collect; Take 1%nat] = Some s ∧
       workers s = [Exited; Exited; Ranging; Ranging] ∧
       (∃ s0, step [] (init []) Collect = Some s0 ∧
              orch s0 = Returned (Some []) None) ∧
       fetched s = [] ∧ workers s ≫= in_flight = [] ∧
       workers s ≫= unsent = [] ∧
       results s = [] ∧ received s = [] ∧ cancelCalls s = 0%nat ∧
       (orch s = Returned (Some []) None ∨
        orch s = Collecting 0 [] ∧
        ∃ s', step [] s Collect = Some s' ∧ orch s' = Returned (Some []) None).
Proof.
  eexists. split; [vm_compute; reflexivity|]. split; [reflexivity|].
  apply (empty_batch [Take 0%nat; Collect; Take 1%nat]). reflexivity.
Defined.

End PoolFacts.

(** ** Properties of the request handler *)

Module HandlerFacts.
Import Limiter Pool Handler.
Local Open Scope list_scope.

Section Decode.
Variable EqualFold : string → string → bool.
Variable UnmarshalTypeError : json → error.

Local Abbreviation readRequest := (readRequest EqualFold UnmarshalTypeError).
Local Abbreviation onRequest := (onRequest EqualFold UnmarshalTypeError).

(** A successful [Acquire] on a limiter with room, seen on its own. *)
Lemma Acquire_room (c : ClientLimiter) (fuel : nat) :
  is_int32 (Limiter.MaxConcurrentClients c) → is_int32 (clientCount c) →
  clientCount c < Limiter.MaxConcurrentClients c →
  Acquire (S fuel) c = Some (None, with_count c (clientCount c + 1)) ∧
  release (with_count c (clientCount c + 1)) = c.
Proof.
  intros Hmax Hcnt Hlt. cbn [Acquire]. unfold do, LoadInt32, CompareAndSwapInt32.
  destruct (Z.leb_spec (Limiter.MaxConcurrentClients c) (clientCount c)); [lia|].
  rewrite Z.eqb_refl. cbn.
  rewrite wrap32_id by (unfold is_int32, int32_min, int32_max in *; lia).
  split; [reflexivity|]. unfold release, AddInt32. cbn.
  rewrite wrap32_id by (unfold is_int32, int32_min, int32_max in *; lia).
  destruct c. unfold with_count. cbn. f_equal. lia.
Qed.

(** Whatever the request, a call of [downloadUrls] comes after the
    length check. *)
Lemma Downloading_within_limit (fuel : nat) (c c' : ClientLimiter)
    (r : Request) (urls : list string)
    (resume : option (list TaskResult) * option error → ClientLimiter
              → ClientLimiter * Reply) :
  onRequest fuel c r = Some (Downloading c' urls resume) →
  readRequest (Body r) = (urls, None) ∧
  (length urls <= MaxUrlsPerRequest)%nat.
Proof.
  unfold Handler.onRequest.
  destruct (negb (String.eqb (Method r) "POST")); [discriminate|].
  destruct (Acquire fuel c) as [[[e|] c1]|]; try discriminate.
  destruct (Handler.readRequest _ _ (Body r)) as [us [e|]]; [discriminate|].
  destruct (Nat.ltb_spec MaxUrlsPerRequest (length us)); [discriminate|].
  intros [= <- <- <-]. split; [reflexivity|lia].
Qed.

(** C9.  [downloadUrls] is only ever called with at most
    [MaxUrlsPerRequest] URLs.  A request that carries more is answered
    with a failure and without that call, whatever its method and the
    state of the limiter; when it is a POST that the limiter lets in,
    the reason is that the number of URLs exceeds the maximum, and the
    slot is given back. *)
Theorem too_many_urls_rejected (c : ClientLimiter) (r : Request)
    (urls : list string) :
  readRequest (Body r) = (urls, None) →
  (MaxUrlsPerRequest < length urls)%nat →
  (∀ fuel' c0 r0 c' us resume,
     onRequest fuel' c0 r0 = Some (Downloading c' us resume) →
     (length us <= MaxUrlsPerRequest)%nat) ∧
  (∀ fuel h, onRequest fuel c r = Some h →
     ∃ c' w reason, h = Replied c' w ∧ payload w = Failure reason) ∧
  (Method r = "POST" →
   is_int32 (Limiter.MaxConcurrentClients c) → is_int32 (clientCount c) →
   clientCount c < Limiter.MaxConcurrentClients c →
   ∀ fuel, onRequest (S fuel) c r
   = Some (Replied c (mkReply 200
                        (Failure "Number of urls exceeds the maximum")))).
Proof.
  intros Hread Hlen. split; [|split].
  - intros fuel' c0 r0 c' us resume H.
    apply Downloading_within_limit in H. tauto.
  - intros fuel h. unfold Handler.onRequest.
    destruct (negb (String.eqb (Method r) "POST")); [intros [= <-]; eauto|].
    destruct (Acquire fuel c) as [[[e|] c1]|]; try discriminate;
      [intros [= <-]; eauto|].
    rewrite Hread.
    destruct (Nat.ltb_spec MaxUrlsPerRequest (length urls)); [|lia].
    intros [= <-]; eauto.
  - intros Hpost Hmax Hcnt Hroom fuel. unfold Handler.onRequest.
    rewrite Hpost. cbn [String.eqb negb].
    destruct (Acquire_room c fuel Hmax Hcnt Hroom) as [-> ->].
    rewrite Hread.
    destruct (Nat.ltb_spec MaxUrlsPerRequest (length urls)); [|lia].
    reflexivity.
Qed.



End Decode.

Lemma too_many_urls_rejected_witness :
  (∀ fuel' c0 r0 c' us resume,
     onRequest EqualFold_ascii type_error_text fuel' c0 r0
     = Some (Downloading c' us resume) →
     (length us <= MaxUrlsPerRequest)%nat) ∧
  (∀ fuel h, onRequest EqualFold_ascii type_error_text fuel (mkLimiter 100 0)
          (post (JObject [("urls", many_urls 21)])) = Some h →
     ∃ c' w reason, h = Replied c' w ∧ payload w = Failure reason) ∧
  onRequest EqualFold_ascii type_error_text 1 (mkLimiter 100 0)
    (post (JObject [("urls", many_urls 21)]))
  = Some (Replied (mkLimiter 100 0)
            (mkReply 200 (Failure "Number of urls exceeds the maximum"))).
Proof.
  destruct (too_many_urls_rejected EqualFold_ascii type_error_text
              (mkLimiter 100 0) (post (JObject [("urls", many_urls 21)]))
              (replicate 21 "http://a"%string) eq_refl)
    as (H1 & H2 & H3); [apply Nat.ltb_lt; reflexivity|].
  split; [exact H1|]. split; [exact H2|].
  apply (λ a b c d, H3 a b c d 0%nat);
    [reflexivity|unfold is_int32, int32_min, int32_max; cbn; lia..|cbn; lia].
Defined.


End HandlerFacts.

(** ** Further properties of the limiter *)

Module LimiterMore.
Import Limiter Outcomes LimiterFacts.

(** X1.  [Acquire] and [release] undo each other: a successful [Acquire]
    followed by [release] gives the limiter back as it was, and so does a
    [release] followed by [Acquire] when the counter was above the lowest
    [int32] and not above the maximum. *)
Theorem Acquire_release_round_trip (c : ClientLimiter) (fuel : nat) :
  is_int32 (MaxConcurrentClients c) → is_int32 (clientCount c) →
  (clientCount c < MaxConcurrentClients c →
   ∃ c1, Acquire (S fuel) c = Some (None, c1) ∧
         clientCount c1 = clientCount c + 1 ∧ release c1 = c) ∧
  (int32_min < clientCount c <= MaxConcurrentClients c →
   Acquire (S fuel) (release c) = Some (None, c)).
Proof.
  intros Hmax Hcnt. split.
  - intros Hlt.
    destruct (HandlerFacts.Acquire_room c fuel Hmax Hcnt Hlt) as [Hacq Hrel].
    eexists. split; [exact Hacq|]. split; [reflexivity|exact Hrel].
  - intros Hin.
    assert (wrap32 (clientCount c + -1) = clientCount c - 1) as Hw
      by (apply wrap32_id; unfold is_int32, int32_min, int32_max in *; lia).
    cbn [Acquire]. unfold do, release, AddInt32, LoadInt32, CompareAndSwapInt32.
    cbn [clientCount MaxConcurrentClients with_count]. rewrite Hw.
    destruct (Z.leb_spec (MaxConcurrentClients c) (clientCount c - 1)); [lia|].
    rewrite Z.eqb_refl.
    rewrite wrap32_id by (unfold is_int32, int32_min, int32_max in *; lia).
    destruct c as [max count]. unfold with_count. cbn. do 3 f_equal. lia.
Qed.

Lemma Acquire_release_round_trip_witness :
  (5 < 100 →
   ∃ c1, Acquire 1 (mkLimiter 100 5) = Some (None, c1) ∧
         clientCount c1 = 5 + 1 ∧ release c1 = mkLimiter 100 5) ∧
  (int32_min < 5 <= 100 →
   Acquire 1 (release (mkLimiter 100 5)) = Some (None, mkLimiter 100 5)).
Proof.
  apply (Acquire_release_round_trip (mkLimiter 100 5) 0);
    unfold is_int32, int32_min, int32_max; cbn; lia.
Defined.

(** X2.  Whatever the limiter and the number of rounds allowed, an [Acquire]
    that returns never changes the maximum; with an error the counter had
    reached the maximum and the limiter is untouched; with nil the counter
    was below the maximum and is now the next [int32]. *)
Theorem Acquire_frame (fuel : nat) (c c' : ClientLimiter) (err : option error) :
  Acquire fuel c = Some (err, c') →
  MaxConcurrentClients c' = MaxConcurrentClients c ∧
  (∀ e, err = Some e →
     e = limit_reached ∧ c' = c ∧ MaxConcurrentClients c <= clientCount c) ∧
  (err = None →
     clientCount c < MaxConcurrentClients c ∧
     clientCount c' = wrap32 (clientCount c + 1)).
Proof.
  destruct fuel as [|fuel]; [discriminate|]. cbn [Acquire].
  unfold do, LoadInt32, CompareAndSwapInt32.
  destruct (Z.leb_spec (MaxConcurrentClients c) (clientCount c)) as [Hle|Hlt].
  - intros [= <- <-]. split; [reflexivity|]. split; [|discriminate].
    intros e [= <-]. auto.
  - rewrite Z.eqb_refl. intros [= <- <-]. cbn.
    split; [reflexivity|]. split; [discriminate|]. auto.
Qed.

Lemma Acquire_frame_witness :
  MaxConcurrentClients (mkLimiter 3 3) = 3 ∧
  (∀ e, Some limit_reached = Some e →
     e = limit_reached ∧ mkLimiter 3 3 = mkLimiter 3 3 ∧ 3 <= 3) ∧
  (Some limit_reached = None → 3 < 3 ∧ 3 = wrap32 (3 + 1)).
Proof.
  apply (Acquire_frame 7 (mkLimiter 3 3) (mkLimiter 3 3) (Some limit_reached)).
  reflexivity.
Defined.

Lemma holders_zero (cs : list Caller) :
  holders cs = 0 ↔ Forall (λ c, c ≠ Holding) cs.
Proof.
  induction cs as [|c cs IH]; cbn.
  - split; [constructor|reflexivity].
  - pose proof (holders_nonneg cs). split.
    + intros H0. constructor; [destruct c; cbn in *; try discriminate; lia|].
      apply IH. destruct c; cbn in *; lia.
    + intros Hall. inversion Hall as [|? ? Hc Hcs]; subst.
      apply IH in Hcs. destruct c; cbn; try lia. congruence.
Qed.

(** X3.  No admission leaks: however the callers interleave, the counter is
    back at 0 exactly when no caller holds a slot; in particular once every
    caller was rejected or has released. *)
Theorem no_leaked_admission (max : Z) (n : nat) (sched : list nat) (s : System) :
  0 <= max → is_int32 max →
  run (init max n) sched = Some s →
  (clientCount (limiter s) = 0 ↔ Forall (λ c, c ≠ Holding) (callers s)) ∧
  (Forall finished (callers s) → clientCount (limiter s) = 0).
Proof.
  intros Hpos Hint Hrun.
  destruct (limiter_Inv_run max sched _ _ Hint (limiter_Inv_init max n Hpos) Hrun)
    as [_ Hc _ _].
  rewrite Hc. split; [apply holders_zero|].
  intros Hdone. apply holders_zero.
  eapply Forall_impl; [exact Hdone|].
  intros c [-> | ->]; discriminate.
Qed.

Lemma no_leaked_admission_witness :
  ∃ s, run (init 1 2) [0; 0; 1; 0]%nat = Some s ∧
       Forall finished (callers s) ∧
       clientCount (limiter s) = 0.
Proof.
  eexists. split; [vm_compute; reflexivity|].
  assert (Forall finished [Released; Rejected]) as Hdone
    by (repeat constructor; unfold finished; auto).
  split; [exact Hdone|].
  refine (proj2 (no_leaked_admission 1 2 [0; 0; 1; 0]%nat _ _ _ eq_refl) Hdone);
    [lia | unfold is_int32, int32_min, int32_max; lia].
Defined.

Lemma holders_below_length (cs : list Caller) (i : nat) (x : Caller) :
  cs !! i = Some x → x ≠ Holding → holders cs <= Z.of_nat (length cs) - 1.
Proof.
  assert (∀ l, holders l <= Z.of_nat (length l)) as Hle.
  { induction l as [|c l IH]; cbn [holders length]; [lia|].
    destruct c; cbn; lia. }
  revert i. induction cs as [|c cs IH]; intros [|i] Hi Hx; try discriminate.
  - injection Hi as ->. specialize (Hle cs). cbn [holders length].
    destruct x; cbn; try lia. congruence.
  - cbn in Hi. specialize (IH i Hi Hx). cbn [holders length].
    destruct c; cbn; lia.
Qed.

Lemma step_callers_length (s s' : System) (i : nat) :
  step s i = Some s' → length (callers s') = length (callers s).
Proof.
  unfold step. destruct (callers s !! i) as [[|cur| | |]|]; try discriminate.
  - destruct (_ <=? _); intros [= <-]; cbn; apply length_insert.
  - destruct (CompareAndSwapInt32 _ _ _). intros [= <-]; cbn; apply length_insert.
  - intros [= <-]; cbn; apply length_insert.
Qed.

Lemma never_rejected_run (max : Z) (sched : list nat) (s s' : System) :
  is_int32 max → Inv max s → Z.of_nat (length (callers s)) <= max →
  Forall (λ c, c ≠ Rejected) (callers s) →
  run s sched = Some s' → Forall (λ c, c ≠ Rejected) (callers s').
Proof.
  intros Hint. revert s. induction sched as [|i sched IH]; intros s HI Hn Hno; cbn.
  - intros [= <-]. exact Hno.
  - destruct (step s i) as [s1|] eqn:Hs; [|discriminate].
    apply IH.
    + eapply limiter_Inv_step; eauto.
    + rewrite (step_callers_length _ _ _ Hs). exact Hn.
    + unfold step in Hs.
      destruct (callers s !! i) as [[|cur| | |]|] eqn:Hi; try discriminate.
      * unfold LoadInt32 in Hs.
        destruct (Z.leb_spec (MaxConcurrentClients (limiter s)) (clientCount (limiter s)))
          as [Hfull|_].
        -- exfalso. destruct HI as [Hm Hc _ _]. rewrite Hm, Hc in Hfull.
           assert (Entering ≠ Holding) as Hne by discriminate.
           pose proof (holders_below_length _ _ _ Hi Hne). lia.
        -- injection Hs as <-. cbn. apply Forall_insert; [exact Hno|discriminate].
      * destruct (CompareAndSwapInt32 _ _ _) as [[] c']; injection Hs as <-; cbn;
          apply Forall_insert; auto; discriminate.
      * injection Hs as <-. cbn. apply Forall_insert; [exact Hno|discriminate].
Qed.

(** X4.  When no more callers arrive than the limiter has slots, none of
    them is ever rejected, whatever the interleaving. *)
Theorem never_rejected_within_capacity (max : Z) (n : nat) (sched : list nat)
    (s : System) :
  Z.of_nat n <= max → is_int32 max →
  run (init max n) sched = Some s →
  Forall (λ c, c ≠ Rejected) (callers s).
Proof.
  intros Hn Hint Hrun.
  apply (never_rejected_run max sched (init max n) s Hint).
  - apply limiter_Inv_init. lia.
  - cbn. rewrite length_replicate. exact Hn.
  - cbn. apply Forall_replicate. discriminate.
  - exact Hrun.
Qed.

Lemma never_rejected_within_capacity_witness :
  ∃ s, run (init 2 2) [0; 1; 0; 1; 1; 1]%nat = Some s ∧
       callers s = [Holding; Holding] ∧
       Forall (λ c, c ≠ Rejected) (callers s).
Proof.
  eexists. split; [vm_compute; reflexivity|]. split; [reflexivity|].
  apply (never_rejected_within_capacity 2 2 [0; 1; 0; 1; 1; 1]%nat);
    [cbn; lia | unfold is_int32, int32_min, int32_max; lia | reflexivity].
Defined.

(** X5.  While as many callers hold a slot as the limiter has, a caller that
    enters is rejected, and the counter stays as it is. *)
Theorem rejected_when_full (max : Z) (n : nat) (sched : list nat) (s : System)
    (i : nat) :
  0 <= max → is_int32 max →
  run (init max n) sched = Some s →
  holders (callers s) = max → callers s !! i = Some Entering →
  step s i = Some (mkSystem (limiter s) (<[i := Rejected]> (callers s))).
Proof.
  intros Hpos Hint Hrun Hfull Hi.
  destruct (limiter_Inv_run max sched _ _ Hint (limiter_Inv_init max n Hpos) Hrun)
    as [Hm Hc _ _].
  unfold step. rewrite Hi. unfold LoadInt32. rewrite Hm, Hc, Hfull.
  rewrite Z.leb_refl. reflexivity.
Qed.

Lemma rejected_when_full_witness :
  ∃ s, run (init 1 2) [0; 0]%nat = Some s ∧
       callers s = [Holding; Entering] ∧
       step s 1 = Some (mkSystem (limiter s) [Holding; Rejected]).
Proof.
  eexists. split; [vm_compute; reflexivity|]. split; [reflexivity|].
  refine (rejected_when_full 1 2 [0; 0]%nat
            (mkSystem (mkLimiter 1 1) [Holding; Entering]) 1 _ _
            eq_refl eq_refl eq_refl);
    [lia | unfold is_int32, int32_min, int32_max; lia].
Defined.

End LimiterMore.

(** ** Further properties of the fetch unit *)

Module FetchMore.
Import Fetch.

Lemma status_ok_spec (z : Z) :
  negb ((200 <=? z) && (z <? 300)) = false ↔ 200 <= z < 300.
Proof.
  destruct (Z.leb_spec 200 z); destruct (Z.ltb_spec z 300); cbn;
    split; intros; try discriminate; try lia; reflexivity.
Qed.

(** X6.  [downloadUrl] returns the nil error exactly when the request could
    be built, the transport answered, the status is in [200, 300) and the
    body was read to its end; what it returns then is that body. *)
Theorem downloadUrl_ok_iff (net : Exchange) (url : string) :
  (downloadUrl net url).2 = None ↔
  ∃ resp, NewRequestWithContext net = None ∧ Do net = inr resp ∧
          200 <= StatusCode resp < 300 ∧ read_err (RespBody resp) = None ∧
          downloadUrl net url = (Some (data (RespBody resp)), None).
Proof.
  unfold downloadUrl, ReadAll.
  destruct (NewRequestWithContext net) as [e|]; [split; [discriminate|]|].
  { intros (resp & H & _). discriminate. }
  destruct (Do net) as [e|resp]; [split; [discriminate|]|].
  { intros (resp & _ & H & _). discriminate. }
  destruct (negb _) eqn:Hst.
  - split.
    + destruct (read_err (RespBody resp)); discriminate.
    + intros (resp' & _ & [= <-] & Hin & _).
      apply status_ok_spec in Hin. congruence.
  - apply status_ok_spec in Hst. split.
    + cbn. intros Herr. exists resp. rewrite Herr. auto.
    + intros (resp' & _ & [= <-] & _ & Herr & _). cbn. exact Herr.
Qed.

(** X7.  [downloadUrl] returns bytes only for a response with a status in
    [200, 300): the bytes read from its body, together with the error of
    that read when it broke off.  Every other failure comes with the nil
    slice. *)
Theorem downloadUrl_body_iff (net : Exchange) (url : string) (b : string) :
  (downloadUrl net url).1 = Some b ↔
  ∃ resp, NewRequestWithContext net = None ∧ Do net = inr resp ∧
          200 <= StatusCode resp < 300 ∧ data (RespBody resp) = b ∧
          (downloadUrl net url).2 = read_err (RespBody resp).
Proof.
  unfold downloadUrl, ReadAll.
  destruct (NewRequestWithContext net) as [e|]; [split; [discriminate|]|].
  { intros (resp & H & _). discriminate. }
  destruct (Do net) as [e|resp]; [split; [discriminate|]|].
  { intros (resp & _ & H & _). discriminate. }
  destruct (negb _) eqn:Hst.
  - split.
    + destruct (read_err (RespBody resp)); discriminate.
    + intros (resp' & _ & [= <-] & Hin & _).
      apply status_ok_spec in Hin. congruence.
  - apply status_ok_spec in Hst. split.
    + cbn. intros [= <-]. exists resp. auto.
    + intros (resp' & _ & [= <-] & _ & <- & _). reflexivity.
Qed.

End FetchMore.

(** ** Further properties of the worker pool and the orchestrator *)

Module PoolMore.
Import Fetch Pool Outcomes PoolFacts.
Local Open Scope list_scope.

(** X8.  Sending a result never blocks: [results] never holds more than
    [len(urls)] results, and a worker that is about to send always finds room
    in it, also after the orchestrator has returned. *)
Theorem send_never_blocks (urls : list string) (evs : list Event) (s : State) :
  run urls (init urls) evs = Some s →
  (length (results s) <= length urls)%nat ∧
  ∀ w r, workers s !! w = Some (Sending r) →
         step urls s (Send w)
         = Some (mkState (tasks s) (results s ++ [r])
                         (<[w := Ranging]> (workers s)) (cancelCalls s)
                         (orch s) (fetched s) (received s)).
Proof.
  intros Hrun. pose proof (reachable_Inv _ _ _ Hrun) as HI.
  pose proof (batch_Inv_count _ _ HI) as Hcount. split; [lia|].
  intros w r Hw. unfold step. rewrite Hw.
  pose proof (bind_lookup_length unsent _ _ _ Hw) as Hlen. cbn in Hlen.
  destruct (Nat.ltb_spec (length (results s)) (length urls)); [reflexivity|lia].
Qed.

Lemma send_never_blocks_witness :
  ∃ s, run batch_bad (init batch_bad)
           (sched_bad ++ [Collect; Fetch 0 (answers 200 "A")])%nat = Some s ∧
       orch s = Returned None
                  (Some (Errorf ("failed to download Url " ++ dquote
                                   ++ "http://bad" ++ dquote
                                   ++ ": status code: 500 (oops)")%string)) ∧
       workers s !! 0%nat = Some (Sending (mkTaskResult "http://a" "A" None)) ∧
       (length (results s) <= length batch_bad)%nat ∧
       ∀ w r, workers s !! w = Some (Sending r) →
              step batch_bad s (Send w)
              = Some (mkState (tasks s) (results s ++ [r])
                              (<[w := Ranging]> (workers s)) (cancelCalls s)
                              (orch s) (fetched s) (received s)).
Proof.
  eexists. split; [vm_compute; reflexivity|]. split; [reflexivity|].
  split; [reflexivity|].
  apply (send_never_blocks batch_bad
           (sched_bad ++ [Collect; Fetch 0 (answers 200 "A")])%nat).
  reflexivity.
Defined.

Lemma in_flight_length (ws : list Worker) :
  (length (ws ≫= in_flight) <= length ws)%nat.
Proof.
  induction ws as [|w ws IH]; [cbn; lia|].
  rewrite bind_cons, length_app. destruct w; cbn in *; lia.
Qed.

(** X9.  A batch never has more than [MaxConcurrentTasksPerRequest] fetches
    in flight, however many URLs it has. *)
Theorem fetches_in_flight_bounded (urls : list string) (evs : list Event)
    (s : State) :
  run urls (init urls) evs = Some s →
  (length (workers s ≫= in_flight) <= MaxConcurrentTasksPerRequest)%nat ∧
  (length (workers s ≫= in_flight) <= length urls)%nat.
Proof.
  intros Hrun. pose proof (reachable_Inv _ _ _ Hrun) as HI.
  pose proof (batch_Inv_count _ _ HI) as Hcount.
  pose proof (in_flight_length (workers s)) as Hlen.
  rewrite (inv_workers _ _ HI) in Hlen. split; [exact Hlen|lia].
Qed.

Lemma fetches_in_flight_bounded_witness :
  ∃ s, run batch_ab (init batch_ab) [Take 3; Take 1]%nat = Some s ∧
       workers s ≫= in_flight = ["http://b"; "http://a"]%string ∧
       (length (workers s ≫= in_flight) <= MaxConcurrentTasksPerRequest)%nat ∧
       (length (workers s ≫= in_flight) <= length batch_ab)%nat.
Proof.
  eexists. split; [vm_compute; reflexivity|]. split; [reflexivity|].
  apply (fetches_in_flight_bounded batch_ab [Take 3; Take 1]%nat). reflexivity.
Defined.

Lemma run_app (urls : list string) (evs evs' : list Event) (s s' s'' : State) :
  run urls s evs = Some s' → run urls s' evs' = Some s'' →
  run urls s (evs ++ evs') = Some s''.
Proof.
  revert s. induction evs as [|e evs IH]; intros s; cbn.
  - intros [= <-]. auto.
  - destruct (step urls s e) as [s1|]; [|discriminate]. apply IH.
Qed.

Lemma drain (urls : list string) (n : nat) :
  ∀ s, Inv urls s → (steps_left urls s <= n)%nat →
       ∃ evs s', run urls s evs = Some s' ∧ quiescent urls s'.
Proof.
  induction n as [|n IH]; intros s HI Hn.
  - destruct (progress urls s HI) as [Hq|(e & s1 & Hs)].
    + exists [], s. auto.
    + apply step_steps_left in Hs. lia.
  - destruct (progress urls s HI) as [Hq|(e & s1 & Hs)].
    + exists [], s. auto.
    + pose proof (step_steps_left _ _ _ _ Hs) as Hlt.
      destruct (IH s1) as (evs & s' & Hrun & Hq);
        [eapply batch_Inv_step; eauto | lia |].
      exists (e :: evs), s'. cbn. rewrite Hs. auto.
Qed.

(** X10.  No goroutine of a batch is left behind: from every state a batch
    can reach, also after a failure was returned, the batch can run on to
    its end, where every worker has left its loop and the orchestrator has
    returned; a result already returned stays the same; and no run, however
    scheduled, is longer than [4 * len(urls) + 5] steps. *)
Theorem batch_drains (urls : list string) (evs : list Event) (s : State) :
  run urls (init urls) evs = Some s →
  ∃ evs' s',
    run urls (init urls) (evs ++ evs') = Some s' ∧
    quiescent urls s' ∧
    Forall (λ w, w = Exited) (workers s') ∧
    (∃ ret err, orch s' = Returned ret err) ∧
    (∀ ret err, orch s = Returned ret err → orch s' = Returned ret err) ∧
    (length (evs ++ evs') <= 4 * length urls + 5)%nat.
Proof.
  intros Hrun. pose proof (reachable_Inv _ _ _ Hrun) as HI.
  destruct (drain urls _ s HI (le_n _)) as (evs' & s' & Hrun' & Hq).
  pose proof (run_app _ _ _ _ _ _ Hrun Hrun') as Hall.
  exists evs', s'. split; [exact Hall|]. split; [exact Hq|].
  pose proof (reachable_Inv _ _ _ Hall) as HI'.
  destruct (proj1 (quiescent_iff urls s' HI') Hq) as [Hex Hret].
  split; [exact Hex|]. split; [exact Hret|]. split.
  - intros ret err Ho. eapply run_Returned in Hrun' as (Ho' & _); eauto.
  - pose proof (run_steps_left _ _ _ _ Hall) as Hb.
    rewrite steps_left_init in Hb. unfold MaxConcurrentTasksPerRequest in Hb.
    lia.
Qed.

Lemma batch_drains_witness :
  ∃ evs' s',
    run batch_bad (init batch_bad) ((sched_bad ++ [Collect]) ++ evs') = Some s' ∧
    quiescent batch_bad s' ∧
    Forall (λ w, w = Exited) (workers s') ∧
    (∃ ret err, orch s' = Returned ret err) ∧
    (∀ ret err,
       Returned None (Some (download_failed
                              (mkTaskResult "http://bad" ""
                                 (Some (Errorf "status code: 500 (oops)")))
                              (Errorf "status code: 500 (oops)")))
       = Returned ret err →
       orch s' = Returned ret err) ∧
    (length ((sched_bad ++ [Collect]) ++ evs') <= 4 * length batch_bad + 5)%nat.
Proof.
  apply (batch_drains batch_bad (sched_bad ++ [Collect])
           (mkState [] [] [Fetching "http://a"; Ranging; Ranging; Ranging] 1
              (Returned None (Some (download_failed
                                      (mkTaskResult "http://bad" ""
                                         (Some (Errorf "status code: 500 (oops)")))
                                      (Errorf "status code: 500 (oops)"))))
              ["http://bad"]%string
              [mkTaskResult "http://bad" ""
                 (Some (Errorf "status code: 500 (oops)"))])).
  vm_compute. reflexivity.
Defined.

(** The results produced only grow, by the result of each fetch. *)
Lemma step_produced (urls : list string) (s s' : State) (e : Event) :
  step urls s e = Some s' →
  match e with
  | Fetch w net =>
      ∃ url, produced s'
             ≡ₚ mkTaskResult url (string_of_bytes (downloadUrl net url).1)
                  (downloadUrl net url).2 :: produced s
  | _ => produced s' ≡ₚ produced s
  end.
Proof.
  unfold step, produced. destruct e as [w|w net|w|].
  - destruct (workers s !! w) as [[| | |]|] eqn:Hlk; try discriminate.
    destruct (tasks s) as [|url rest]; intros [= <-];
      cbn [received results workers set_worker].
    + pose proof (bind_insert unsent (workers s) w _ Exited Hlk) as Hu.
      cbn in Hu. rewrite Hu. reflexivity.
    + pose proof (bind_insert unsent (workers s) w _ (Fetching url) Hlk) as Hu.
      cbn in Hu. rewrite Hu. reflexivity.
  - destruct (workers s !! w) as [[|url| |]|] eqn:Hlk; try discriminate.
    destruct (downloadUrl net url) as [ret err] eqn:Hd. intros [= <-].
    cbn [received results workers]. exists url. rewrite Hd. cbn [fst snd].
    pose proof (bind_insert unsent (workers s) w _
                  (Sending (mkTaskResult url (string_of_bytes ret) err)) Hlk)
      as Hu.
    cbn in Hu. rewrite Hu. solve_Permutation.
  - destruct (workers s !! w) as [[| |r|]|] eqn:Hlk; try discriminate.
    destruct (length (results s) <? length urls)%nat; [|discriminate].
    intros [= <-]. cbn [received results workers].
    pose proof (bind_insert unsent (workers s) w _ Ranging Hlk) as Hu.
    cbn in Hu. rewrite <- Hu. solve_Permutation.
  - destruct (orch s) as [i ret|]; [|discriminate].
    destruct (i <? length urls)%nat.
    + destruct (results s) as [|result rest]; [discriminate|].
      destruct (Err result); intros [= <-]; cbn [received results workers];
        solve_Permutation.
    + intros [= <-]. reflexivity.
Qed.

Lemma has_failed_step (urls : list string) (s s' : State) (e : Event) :
  step urls s e = Some s' → has_failed s ∨ fetch_fails e → has_failed s'.
Proof.
  unfold has_failed. intros Hs Hor. apply step_produced in Hs.
  destruct e as [w|w net|w|]; try (rewrite Hs; cbn in Hor; tauto).
  destruct Hs as [url ->]. apply Exists_cons. destruct Hor as [H|H].
  - right. exact H.
  - left. cbn. apply H.
Qed.

Lemma has_failed_run (urls : list string) (evs : list Event) (s s' : State) :
  run urls s evs = Some s' →
  has_failed s ∨ Exists fetch_fails evs → has_failed s'.
Proof.
  revert s. induction evs as [|e evs IH]; intros s; cbn.
  - intros [= <-] [H|H]; [exact H|inversion H].
  - destruct (step urls s e) as [s1|] eqn:Hs; [|discriminate].
    intros Hrun Hor. apply (IH s1 Hrun).
    destruct Hor as [H|H].
    + left. eapply has_failed_step; eauto.
    + inversion H as [? ? Hf|? ? Hf]; subst.
      * left. eapply has_failed_step; eauto.
      * right. exact Hf.
Qed.

(** X11.  A batch in which some fetch came back with an error never returns
    the nil error, whatever the interleaving; once it has run to its end it
    has returned an error. *)
Theorem failed_fetch_fails_batch (urls : list string) (evs : list Event)
    (s : State) :
  run urls (init urls) evs = Some s → Exists fetch_fails evs →
  (∀ ret, orch s ≠ Returned (Some ret) None) ∧
  (quiescent urls s → ∃ err, orch s = Returned None (Some err)).
Proof.
  intros Hrun Hfail. pose proof (reachable_Inv _ _ _ Hrun) as HI.
  pose proof (has_failed_run _ _ _ _ Hrun (or_intror Hfail)) as Hbad.
  assert (∀ ret, orch s ≠ Returned (Some ret) None) as Hno.
  { intros ret Ho. pose proof (batch_Inv_count _ _ HI) as Hcount.
    pose proof (inv_orch _ _ HI) as Horch. rewrite Ho in Horch.
    destruct Horch as (Hrecv & Hlen & Hall & _).
    rewrite Hrecv, Hlen in Hcount.
    assert (results s = []) as Er by (apply length_zero_iff_nil; lia).
    assert (workers s ≫= unsent = []) as Eu by (apply length_zero_iff_nil; lia).
    unfold has_failed, produced in Hbad. rewrite Er, Eu, Hrecv, !app_nil_r in Hbad.
    apply Exists_exists in Hbad as (r & Hin & Herr).
    rewrite Forall_forall in Hall. apply Herr, Hall, Hin. }
  split; [exact Hno|].
  intros Hq. apply (quiescent_iff urls s HI) in Hq as [_ (ret & err & Ho)].
  pose proof (inv_orch _ _ HI) as Horch. rewrite Ho in Horch.
  destruct ret as [ret|], err as [err|]; try tauto.
  - exfalso. apply (Hno ret). exact Ho.
  - eauto.
Qed.

Lemma failed_fetch_fails_batch_witness :
  ∃ s, run batch_bad (init batch_bad)
           (sched_bad ++ [Fetch 0 (answers 200 "A"); Send 0; Collect])%nat
       = Some s ∧
       results s = [mkTaskResult "http://a" "A" None] ∧
       (∀ ret, orch s ≠ Returned (Some ret) None) ∧
       (quiescent batch_bad s → ∃ err, orch s = Returned None (Some err)).
Proof.
  eexists. split; [vm_compute; reflexivity|]. split; [reflexivity|].
  apply (failed_fetch_fails_batch batch_bad
           (sched_bad ++ [Fetch 0 (answers 200 "A"); Send 0; Collect])%nat);
    [reflexivity|].
  apply Exists_cons_tl, Exists_cons_tl, Exists_cons_hd.
  intros url. discriminate.
Defined.

(** X12.  A nil-error return hides neither a failure nor unfinished work,
    in any run: every URL of the batch has been fetched, each result
    produced is among those returned and carries no error, nothing is left
    in the queue, in flight or in [results], and the cancellation was never
    triggered. *)
Theorem success_is_complete (urls : list string) (evs : list Event) (s : State)
    (ret : list TaskResult) :
  run urls (init urls) evs = Some s → orch s = Returned (Some ret) None →
  produced s = ret ∧ Forall no_error ret ∧ fetched s ≡ₚ urls ∧
  Url <$> ret ≡ₚ urls ∧
  tasks s = [] ∧ workers s ≫= in_flight = [] ∧ results s = [] ∧
  cancelCalls s = 0%nat.
Proof.
  intros Hrun Ho. pose proof (reachable_Inv _ _ _ Hrun) as HI.
  pose proof (batch_Inv_count _ _ HI) as Hcount.
  pose proof (inv_orch _ _ HI) as Horch. rewrite Ho in Horch.
  destruct Horch as (Hrecv & Hlen & Hall & Hc).
  destruct (received_all urls s HI) as [Hperm Hf]; [congruence|].
  rewrite Hrecv in *. rewrite Hlen in Hcount.
  assert (results s = []) as Er by (apply length_zero_iff_nil; lia).
  assert (workers s ≫= unsent = []) as Eu by (apply length_zero_iff_nil; lia).
  unfold produced. rewrite Hrecv, Er, Eu, !app_nil_r.
  repeat split; auto; apply length_zero_iff_nil; lia.
Qed.

Lemma success_is_complete_witness :
  produced (mkState [] [] [Ranging; Ranging; Ranging; Ranging] 0
              (Returned (Some [mkTaskResult "http://a" "A" None;
                               mkTaskResult "http://b" "B" None]) None)
              batch_ab
              [mkTaskResult "http://a" "A" None; mkTaskResult "http://b" "B" None])
  = [mkTaskResult "http://a" "A" None; mkTaskResult "http://b" "B" None] ∧
  Forall no_error [mkTaskResult "http://a" "A" None;
                   mkTaskResult "http://b" "B" None] ∧
  batch_ab ≡ₚ batch_ab ∧
  Url <$> [mkTaskResult "http://a" "A" None; mkTaskResult "http://b" "B" None]
  ≡ₚ batch_ab ∧
  @nil string = [] ∧
  [Ranging; Ranging; Ranging; Ranging] ≫= in_flight = [] ∧
  @nil TaskResult = [] ∧ 0%nat = 0%nat.
Proof.
  apply (success_is_complete batch_ab sched_ab
           (mkState [] [] [Ranging; Ranging; Ranging; Ranging] 0
              (Returned (Some [mkTaskResult "http://a" "A" None;
                               mkTaskResult "http://b" "B" None]) None)
              batch_ab
              [mkTaskResult "http://a" "A" None; mkTaskResult "http://b" "B" None])
           [mkTaskResult "http://a" "A" None; mkTaskResult "http://b" "B" None]).
  - vm_compute. reflexivity.
  - reflexivity.
Defined.

(** X13.  An error returned by [downloadUrls] comes with the nil slice,
    names a URL of the batch and wraps the error of the fetch of that URL;
    it is the error of the last result the orchestrator read, and no result
    read before carried one. *)
Theorem failure_names_a_batch_url (urls : list string) (evs : list Event)
    (s : State) (ret : option (list TaskResult)) (err : error) :
  run urls (init urls) evs = Some s → orch s = Returned ret (Some err) →
  ret = None ∧
  ∃ before result cause,
    received s = before ++ [result] ∧ Forall no_error before ∧
    Err result = Some cause ∧ Url result ∈ urls ∧
    Error err = ("failed to download Url " ++ dquote ++ Url result ++ dquote
                   ++ ": " ++ Error cause)%string.
Proof.
  intros Hrun Ho. pose proof (reachable_Inv _ _ _ Hrun) as HI.
  pose proof (inv_orch _ _ HI) as Horch. rewrite Ho in Horch.
  destruct ret as [ret|]; [tauto|]. split; [reflexivity|].
  destruct Horch as (_ & before & result & cause & Hrecv & Hall & Hcause & ->).
  exists before, result, cause. repeat split; auto.
  assert (Url result ∈ fetched s) as Hin.
  { rewrite (inv_results _ _ HI), Hrecv. apply list_elem_of_fmap_2.
    rewrite !elem_of_app. left. right. apply list_elem_of_singleton. reflexivity. }
  rewrite <- (inv_tasks _ _ HI), !elem_of_app. auto.
Qed.

Lemma failure_names_a_batch_url_witness :
  ∃ s, run batch_bad (init batch_bad) (sched_bad ++ [Collect]) = Some s ∧
       ∃ before result cause,
         received s = before ++ [result] ∧ Forall no_error before ∧
         Err result = Some cause ∧ Url result ∈ batch_bad ∧
         Error (download_failed
                  (mkTaskResult "http://bad" ""
                     (Some (Errorf "status code: 500 (oops)")))
                  (Errorf "status code: 500 (oops)"))
         = ("failed to download Url " ++ dquote ++ Url result ++ dquote
              ++ ": " ++ Error cause)%string.
Proof.
  eexists. split; [vm_compute; reflexivity|].
  refine (proj2 (failure_names_a_batch_url batch_bad (sched_bad ++ [Collect]) _
                   None _ eq_refl eq_refl)).
Defined.

(** X22.  A worker reports what its fetch returned: the result it goes on
    to send carries the URL it took from the queue and the error of
    [downloadUrl]; with the nil error its text is the body of the response,
    and after a response with a status outside [200, 300) its text is
    empty. *)
Theorem worker_reports_fetch (urls : list string) (s : State) (w : nat)
    (url : string) (net : Exchange) :
  workers s !! w = Some (Fetching url) →
  ∃ r, step urls s (Fetch w net)
       = Some (mkState (tasks s) (results s) (<[w := Sending r]> (workers s))
                       (cancelCalls s) (orch s) (fetched s ++ [url])
                       (received s)) ∧
       Url r = url ∧ Err r = (downloadUrl net url).2 ∧
       (Err r = None →
        ∃ resp, Do net = inr resp ∧ Result r = data (RespBody resp)) ∧
       (∀ resp, NewRequestWithContext net = None → Do net = inr resp →
                ¬ (200 <= StatusCode resp < 300) →
                Result r = ""%string ∧ Err r ≠ None).
Proof.
  intros Hw. unfold step. rewrite Hw. unfold downloadUrl, Fetch.ReadAll.
  destruct (NewRequestWithContext net) as [e|].
  { eexists. split; [reflexivity|]. cbn.
    split; [reflexivity|]. split; [reflexivity|].
    split; [discriminate|]. intros resp H. discriminate. }
  destruct (Do net) as [e|resp].
  { eexists. split; [reflexivity|]. cbn.
    split; [reflexivity|]. split; [reflexivity|].
    split; [discriminate|]. intros resp _ H. discriminate. }
  destruct (negb _) eqn:Hst.
  - destruct (read_err (RespBody resp)) as [e|];
      (eexists; split; [reflexivity|]; cbn;
       split; [reflexivity|]; split; [reflexivity|];
       split; [discriminate|]; intros resp' _ _ _; split;
       [reflexivity|discriminate]).
  - apply FetchMore.status_ok_spec in Hst.
    eexists. split; [reflexivity|]. cbn.
    split; [reflexivity|]. split; [reflexivity|]. split.
    + intros _. exists resp. auto.
    + intros resp' _ [= <-] Hout. tauto.
Qed.

Lemma worker_reports_fetch_witness :
  ∃ r, step batch_ab
         (mkState ["http://b"] [] [Fetching "http://a"; Ranging; Ranging; Ranging]
                  0 (Collecting 0 []) [] [])
         (Fetch 0 (answers 200 "A"))
       = Some (mkState ["http://b"] [] [Sending r; Ranging; Ranging; Ranging]
                       0 (Collecting 0 []) ["http://a"] []) ∧
       Url r = "http://a"%string ∧ Err r = None ∧ Result r = "A"%string.
Proof.
  destruct (worker_reports_fetch batch_ab
              (mkState ["http://b"]%string []
                 [Fetching "http://a"; Ranging; Ranging; Ranging]
                 0 (Collecting 0 []) [] [])
              0 "http://a" (answers 200 "A") eq_refl)
    as (r & Hstep & Hurl & Herr & Hbody & _).
  exists r. split; [exact Hstep|]. split; [exact Hurl|]. split; [exact Herr|].
  destruct (Hbody Herr) as (resp & [= <-] & Hres). exact Hres.
Defined.

End PoolMore.

(** ** Further properties of the request handler *)

Module HandlerMore.
Import Limiter Pool Handler Outcomes PoolFacts.
Local Open Scope list_scope.

Section Decode.
Variable EqualFold : string → string → bool.
Variable UnmarshalTypeError : json → error.

Local Abbreviation readRequest := (readRequest EqualFold UnmarshalTypeError).
Local Abbreviation onRequest := (onRequest EqualFold UnmarshalTypeError).
Local Abbreviation decode_elems := (decode_elems UnmarshalTypeError).
Local Abbreviation decode_members :=
  (decode_members EqualFold UnmarshalTypeError).
Local Abbreviation names_urls := (names_urls EqualFold).

(** *** [readRequest] *)

(** X14.  [readRequest] never returns URLs together with an error.  A body
    that cannot be read to its end gives the error of the read, whatever was
    read; a body that is not well-formed JSON gives the syntax error. *)
Theorem readRequest_error_no_urls (r : Reader) :
  (∀ urls e, readRequest r = (urls, Some e) → urls = []) ∧
  (∀ e, broken r = Some e → readRequest r = ([], Some e)) ∧
  (∀ syntax, broken r = None → content r = Malformed syntax →
             readRequest r = ([], Some syntax)).
Proof.
  unfold Handler.readRequest, ReadAll. split; [|split].
  - intros urls e. destruct (broken r); [intros [= <- _]; reflexivity|].
    destruct (Unmarshal _ _ (content r)) as [us [e'|]];
      intros [= <- _]. reflexivity.
  - intros e ->. reflexivity.
  - intros syntax -> ->. reflexivity.
Qed.

Lemma decode_elems_strings (cur us : list string) :
  decode_elems cur (JString <$> us) = (us, None).
Proof.
  revert cur. induction us as [|u us IH]; intros cur; [reflexivity|].
  cbn. rewrite IH. reflexivity.
Qed.




Lemma decode_members_skip (cur : list string) (members : list (string * json)) :
  Forall (λ m, names_urls m.1 = false) members →
  decode_members cur members = (cur, None).
Proof.
  induction 1 as [|[key v] members Hk _ IH]; [reflexivity|].
  cbn in *. rewrite Hk. exact IH.
Qed.

Lemma decode_members_one (pre post : list (string * json)) (key : string)
    (v : json) :
  Forall (λ m, names_urls m.1 = false) pre →
  Forall (λ m, names_urls m.1 = false) post →
  names_urls key = true →
  decode_members [] (pre ++ (key, v) :: post)
  = decode_slice UnmarshalTypeError [] v.
Proof.
  intros Hpre Hpost Hkey.
  induction Hpre as [|[k x] pre Hk _ IH]; cbn in *.
  - rewrite Hkey. destruct (decode_slice UnmarshalTypeError [] v) as [cur e].
    rewrite (decode_members_skip cur post Hpost). destruct e; reflexivity.
  - rewrite Hk. exact IH.
Qed.

(** X15.  Round trip: a body that is a JSON object whose only member for
    [urls] is an array of strings is read as exactly those strings, in
    order, with no error; members of other names are ignored. *)
Theorem readRequest_urls_round_trip (pre post : list (string * json))
    (key : string) (us : list string) :
  Forall (λ m, names_urls m.1 = false) pre →
  Forall (λ m, names_urls m.1 = false) post →
  names_urls key = true →
  readRequest (object_body (pre ++ (key, JArray (JString <$> us)) :: post))
  = (us, None).
Proof.
  intros Hpre Hpost Hkey. unfold Handler.readRequest, object_body, ReadAll.
  cbn [content broken Unmarshal].
  rewrite (decode_members_one pre post key _ Hpre Hpost Hkey).
  cbn [decode_slice]. rewrite decode_elems_strings. reflexivity.
Qed.


(** *** [onRequest] *)

Lemma Acquire_full (c : ClientLimiter) (fuel : nat) :
  Limiter.MaxConcurrentClients c <= clientCount c →
  Acquire (S fuel) c = Some (Some limit_reached, c).
Proof.
  intros Hfull. cbn [Acquire]. unfold do, LoadInt32.
  destruct (Z.leb_spec (Limiter.MaxConcurrentClients c) (clientCount c));
    [reflexivity|lia].
Qed.

(** X17.  A request that is not a POST is answered with status 400 and
    "Method not supported", whatever its body and the state of the
    limiter: the limiter is not touched and the body is not read. *)
Theorem not_POST_refused (fuel : nat) (c : ClientLimiter) (r : Request) :
  Method r ≠ "POST"%string →
  onRequest fuel c r
  = Some (Replied c (mkReply 400 (Failure "Method not supported"))).
Proof.
  intros Hm. unfold Handler.onRequest.
  destruct (String.eqb_spec (Method r) "POST"); [contradiction|reflexivity].
Qed.

(** X18.  A POST that finds the limiter full is answered with status 503
    and "Max parallel requests reached", whatever its body; the counter
    stays as it is and no slot is released. *)
Theorem full_limiter_refuses (fuel : nat) (c : ClientLimiter) (r : Request) :
  Method r = "POST"%string →
  Limiter.MaxConcurrentClients c <= clientCount c →
  onRequest (S fuel) c r
  = Some (Replied c (mkReply 503 (Failure "Max parallel requests reached"))).
Proof.
  intros Hm Hfull. unfold Handler.onRequest. rewrite Hm. cbn [String.eqb negb].
  rewrite (Acquire_full c fuel Hfull). reflexivity.
Qed.

(** X19.  The handler gives back the slot it takes, on every path: a run
    that ends without calling [downloadUrls] leaves the limiter as it found
    it; a run that calls it holds one slot during the call, and the rest of
    the handler releases exactly that one, whatever the call returned. *)
Theorem slot_given_back (fuel : nat) (c : ClientLimiter) (r : Request)
    (h : Handling) :
  is_int32 (Limiter.MaxConcurrentClients c) → is_int32 (clientCount c) →
  onRequest fuel c r = Some h →
  match h with
  | Replied c' _ => c' = c
  | Downloading c1 _ resume =>
      c1 = with_count c (clientCount c + 1) ∧ release c1 = c ∧
      ∀ res c2, (resume res c2).1 = release c2
  end.
Proof.
  intros Hmax Hcnt. unfold Handler.onRequest.
  destruct (negb (String.eqb (Method r) "POST")); [intros [= <-]; reflexivity|].
  destruct fuel as [|fuel]; [discriminate|].
  destruct (Z.le_gt_cases (Limiter.MaxConcurrentClients c) (clientCount c))
    as [Hfull|Hroom].
  - rewrite (Acquire_full c fuel Hfull). intros [= <-]. reflexivity.
  - destruct (HandlerFacts.Acquire_room c fuel Hmax Hcnt) as [-> Hrel]; [lia|].
    destruct (Handler.readRequest _ _ (Body r)) as [urls [e|]].
    + intros [= <-]. exact Hrel.
    + destruct (MaxUrlsPerRequest <? length urls)%nat; intros [= <-];
        [exact Hrel|].
      split; [reflexivity|]. split; [exact Hrel|].
      intros [ret [e|]] c2; reflexivity.
Qed.

(** X20.  A request that was let in but whose body cannot be read or decoded
    is answered with the text of that error, under status 200, and the slot
    is given back; [downloadUrls] is not called. *)
Theorem unreadable_body_refused (fuel : nat) (c : ClientLimiter) (r : Request)
    (urls : list string) (e : error) :
  Method r = "POST"%string →
  is_int32 (Limiter.MaxConcurrentClients c) → is_int32 (clientCount c) →
  clientCount c < Limiter.MaxConcurrentClients c →
  readRequest (Body r) = (urls, Some e) →
  onRequest (S fuel) c r = Some (Replied c (mkReply 200 (Failure (Error e)))).
Proof.
  intros Hm Hmax Hcnt Hroom Hread. unfold Handler.onRequest.
  rewrite Hm. cbn [String.eqb negb].
  destruct (HandlerFacts.Acquire_room c fuel Hmax Hcnt Hroom) as [-> ->].
  rewrite Hread. reflexivity.
Qed.


End Decode.

Lemma readRequest_urls_round_trip_witness :
  readRequest EqualFold_ascii type_error_text
    (object_body [("id", JNumber "7");
                  ("URLs", JArray (JString <$> ["http://a"; "http://b"]));
                  ("note", JNull)])
  = (["http://a"; "http://b"], None)%string.
Proof.
  apply (readRequest_urls_round_trip EqualFold_ascii type_error_text
           [("id", JNumber "7")]%string [("note", JNull)]%string "URLs"
           ["http://a"; "http://b"]%string);
    [repeat constructor..|reflexivity].
Defined.


Lemma not_POST_refused_witness :
  onRequest EqualFold_ascii type_error_text 0 (mkLimiter 100 100)
    (mkRequest "GET" (mkReader (Malformed (Errorf "unexpected end")) None))
  = Some (Replied (mkLimiter 100 100)
            (mkReply 400 (Failure "Method not supported"))).
Proof.
  apply (not_POST_refused EqualFold_ascii type_error_text 0 (mkLimiter 100 100)).
  discriminate.
Defined.

Lemma full_limiter_refuses_witness :
  onRequest EqualFold_ascii type_error_text 1 (mkLimiter 100 100)
    (post (JObject [("urls", many_urls 1)]))
  = Some (Replied (mkLimiter 100 100)
            (mkReply 503 (Failure "Max parallel requests reached"))).
Proof.
  apply (full_limiter_refuses EqualFold_ascii type_error_text 0
           (mkLimiter 100 100)); [reflexivity | cbn; lia].
Defined.

Lemma slot_given_back_witness :
  onRequest EqualFold_ascii type_error_text 1 (mkLimiter 100 7)
    (post (JObject [("urls", many_urls 21)]))
  = Some (Replied (mkLimiter 100 7)
            (mkReply 200 (Failure "Number of urls exceeds the maximum"))) ∧
  mkLimiter 100 7 = mkLimiter 100 7.
Proof.
  split; [vm_compute; reflexivity|].
  refine (slot_given_back EqualFold_ascii type_error_text 1 (mkLimiter 100 7)
            (post (JObject [("urls", many_urls 21)]))
            (Replied (mkLimiter 100 7)
               (mkReply 200 (Failure "Number of urls exceeds the maximum")))
            _ _ _);
    [unfold is_int32, int32_min, int32_max; cbn; lia..
    | vm_compute; reflexivity].
Defined.

Lemma unreadable_body_refused_witness :
  onRequest EqualFold_ascii type_error_text 1 (mkLimiter 100 0)
    (post (JArray []))
  = Some (Replied (mkLimiter 100 0)
            (mkReply 200 (Failure "json: cannot unmarshal value into Go value"))).
Proof.
  apply (unreadable_body_refused EqualFold_ascii type_error_text 0
           (mkLimiter 100 0) (post (JArray [])) []
           (type_error_text (JArray [])) eq_refl);
    [ unfold is_int32, int32_min, int32_max; cbn; lia
    | unfold is_int32, int32_min, int32_max; cbn; lia
    | cbn; lia | reflexivity].
Defined.


End HandlerMore.
